(** * signalk-redhead-daq: the polling plugin of [index.js]

    A shallow embedding of the plugin closure of [index.js] (its variables,
    [plugin.start], [plugin.stop], [plugin.statusMessage], [startLoading],
    [loadInfo] with its response callback, [printRequestError] and
    [getAlarmDelta]) and the properties of its alarm tracking, its
    translation of device records and its life cycle.

    JavaScript numbers are IEEE 754 binary64 values: they are modelled by the
    kernel's primitive floats, so [x / 255.0] below is the very operation the
    program performs. *)

From Stdlib Require Import Floats.PrimFloat.
From Stdlib Require Import String Ascii List Bool ZArith Lia.
Import ListNotations.
Set Warnings "-inexact-float,-register-all".
Local Open Scope string_scope.

(** ** Values handed to the host *)

(** The JavaScript values the plugin puts into a delta. [JBuiltin k] stands for
    the member [k] that an object literal inherits from [Object.prototype]
    (a function such as [toString]); it is what [colorModeMap[k]] evaluates to
    for such a [k]. *)
Inductive jsval : Type :=
| JUndefined
| JBool (b : bool)
| JNum (x : float)
| JStr (s : string)
| JArr (items : list jsval)
| JObj (fields : list (string * jsval))
| JBuiltin (member : string).

(** [{ path: ..., value: ... }] *)
Record pathvalue : Type := { path : string; value : jsval }.

(** [{ values: [...] }] and [{ updates: [...] }] *)
Record update : Type := { values : list pathvalue }.
Record delta : Type := { updates : list update }.

(** ** Device records

    The body of a reply is a keyed collection of light-like records. A field
    that the record does not have reads as [undefined]: [None]. *)
Record light_state : Type := {
  on : option bool;
  any_on : option bool;
  bri : option float;
  colormode : option string;
  hue : option float;
  sat : option float;
  ct : option float;
  xy : option (list float)
}.

Record light : Type := {
  name : option string;
  modelid : option string;
  state : option light_state;
  action : option light_state
}.

(** The own enumerable keys of the body with their records, in the order
    [_.keys] lists them. A body that is a string of [n] characters (what
    [request] delivers when it is not asked to parse the reply) has the keys
    "0" to [n-1], each with a one-character string that has none of the fields:
    [n] records whose fields are all [None]. *)
Definition raw_state : Type := list (string * light).

(** ** Configuration, replies, environment *)

(** [props], as [plugin.schema] types it: [address] is required, [refreshRate]
    may be missing. *)
Record props : Type := {
  address : string;
  refreshRate : option float
}.

(** The [error] argument of the response callback, when it is not [null]. *)
Record js_error : Type := { message : string }.

(** The [response] argument of the response callback, when it is not
    [undefined]. *)
Record http_response : Type := { statusCode : Z }.

(** What the file takes from outside itself:
    - [camelCase], the function exported by the [camelcase] package, on strings;
    - [globals], the global scope, in which the two identifiers that the file
      reads but never declares ([load] and [hueType]) are resolved; the scope
      binds names to strings, [None] is an unbound name;
    - whether the host object [app] has [setProviderStatus] and
      [setProviderError]. *)
Record env : Type := {
  camelCase : string -> string;
  globals : string -> option string;
  app_has_setProviderStatus : bool;
  app_has_setProviderError : bool
}.

(** ** Effects *)

Inductive exn : Type :=
| ReferenceError (ident : string)
| TypeError (what : string).

Inductive outcome (A : Type) : Type :=
| Normal (a : A)
| Thrown (e : exn).
Arguments Normal {A} a.
Arguments Thrown {A} e.

(** An armed interval: its handle, its period in milliseconds and the
    arguments its callback [() => { loadInfo(props, ip) }] has captured. *)
Record timer : Type := {
  handle : nat;
  period_ms : float;
  timer_props : props;
  timer_ip : string
}.

(** The calls the plugin makes on its collaborators. *)
Inductive call : Type :=
| app_handleMessage (id : string) (d : delta)
| app_setProviderStatus (msg : string)
| app_setProviderError (msg : string)
| app_error (msg : string)
| request (url : string) (method : string)
| setInterval (t : timer)
| clearInterval (h : nat).

(** The variables of the closure, [var statusMessage] and
    [var sentUnavailableAlarm] ([None] is [undefined], their value until the
    first assignment) and [onStop] (each entry is the closure
    [() => clearInterval(timer)], kept as the handle it captured), together
    with the intervals armed in the event loop and the handle the next
    [setInterval] will return. *)
Record vars : Type := {
  statusMessage : option string;
  sentUnavailableAlarm : option bool;
  onStop : list nat;
  timers : list timer;
  next_handle : nat
}.

(** The closure right after [module.exports(app)] has returned. *)
Definition initial : vars :=
  {| statusMessage := None; sentUnavailableAlarm := None;
     onStop := []; timers := []; next_handle := 0 |}.

(** A computation reads and writes the closure variables, makes calls (listed
    oldest first) and either returns or throws; what it wrote and called before
    throwing stays. *)
Definition M (A : Type) : Type := vars -> outcome A * vars * list call.

Definition ret {A} (a : A) : M A := fun s => (Normal a, s, []).

Definition throw {A} (e : exn) : M A := fun s => (Thrown e, s, []).

Definition bind {A B} (m : M A) (k : A -> M B) : M B := fun s =>
  match m s with
  | (Normal a, s1, c1) =>
      match k a s1 with
      | (r, s2, c2) => (r, s2, (c1 ++ c2)%list)
      end
  | (Thrown e, s1, c1) => (Thrown e, s1, c1)
  end.

Definition emit (c : call) : M unit := fun s => (Normal tt, s, [c]).

Definition read {A} (f : vars -> A) : M A := fun s => (Normal (f s), s, []).

Definition write (f : vars -> vars) : M unit := fun s => (Normal tt, f s, []).

Declare Scope js_scope.
Delimit Scope js_scope with js.
Notation "x <- m ;; k" := (bind m (fun x => k))
  (at level 61, m at next level, right associativity) : js_scope.
Notation "m ;; k" := (bind m (fun _ => k))
  (at level 61, right associativity) : js_scope.
Local Open Scope js_scope.

(** [when c m]: [if (c) { m }] *)
Definition when (c : bool) (m : M unit) : M unit := if c then m else ret tt.

(** [xs.forEach(f)] *)
Fixpoint forEach {A} (f : A -> M unit) (xs : list A) : M unit :=
  match xs with
  | [] => ret tt
  | x :: rest => f x ;; forEach f rest
  end.

Definition set_statusMessage (msg : string) : M unit :=
  write (fun s => {| statusMessage := Some msg;
                     sentUnavailableAlarm := sentUnavailableAlarm s;
                     onStop := onStop s; timers := timers s;
                     next_handle := next_handle s |}).

Definition set_sentUnavailableAlarm (b : bool) : M unit :=
  write (fun s => {| statusMessage := statusMessage s;
                     sentUnavailableAlarm := Some b;
                     onStop := onStop s; timers := timers s;
                     next_handle := next_handle s |}).

(** ** Conversions of the language *)

(** ToBoolean on a number: [0], [-0] and [NaN] are falsy. *)
Definition truthy_num (x : float) : bool :=
  negb (PrimFloat.eqb x 0%float) && negb (PrimFloat.is_nan x).

Definition truthy_optnum (x : option float) : bool :=
  match x with Some v => truthy_num v | None => false end.

(** ToBoolean on a string: only the empty string is falsy. *)
Definition truthy_optstr (x : option string) : bool :=
  match x with Some s => negb (s =? "") | None => false end.

(** ToBoolean on [sentUnavailableAlarm]. *)
Definition truthy_optbool (x : option bool) : bool :=
  match x with Some b => b | None => false end.

(** ToNumber on a numeric field: [undefined] becomes [NaN]. *)
Definition to_number (x : option float) : float :=
  match x with Some v => v | None => PrimFloat.nan end.

Definition of_optbool (x : option bool) : jsval :=
  match x with Some b => JBool b | None => JUndefined end.

Definition of_optstr (x : option string) : jsval :=
  match x with Some s => JStr s | None => JUndefined end.

Definition of_optnum (x : option float) : jsval :=
  match x with Some v => JNum v | None => JUndefined end.

(** ** Constants of the module *)

Definition base : string := "electrical.switches.hue".

Definition object_prototype_members : list string :=
  ["constructor"; "hasOwnProperty"; "isPrototypeOf"; "propertyIsEnumerable";
   "toLocaleString"; "toString"; "valueOf"; "__defineGetter__";
   "__defineSetter__"; "__lookupGetter__"; "__lookupSetter__"; "__proto__"].

(** [colorModeMap[k]]: the three entries of the literal, then what the literal
    inherits, then [undefined]. *)
Definition colorModeMap (k : string) : jsval :=
  if k =? "hs" then JStr "hsb"
  else if k =? "ct" then JStr "temperature"
  else if k =? "xy" then JStr "cie"
  else if existsb (String.eqb k) object_prototype_members then JBuiltin k
  else JUndefined.

Definition plugin_id : string := "signalk-redhead-daq".

Definition alarm_path : string := "notifications.redhead.daqUnavailable".

(** [getAlarmDelta(app, path, state, message)] *)
Definition getAlarmDelta (p st msg : string) : delta :=
  {| updates :=
       [ {| values :=
              [ {| path := p;
                   value := JObj [ ("state", JStr st);
                                   ("method", JArr [JStr "visual"; JStr "sound"]);
                                   ("message", JStr msg) ] |} ] |} ] |}.

(** ** The plugin *)

Section Plugin.

Variable E : env.

(** [const setProviderStatus = app.setProviderStatus ? ... : ...] *)
Definition setProviderStatus (msg : string) : M unit :=
  when (app_has_setProviderStatus E) (emit (app_setProviderStatus msg)) ;;
  set_statusMessage msg.

(** [const setProviderError = app.setProviderError ? ... : ...] *)
Definition setProviderError (msg : string) : M unit :=
  when (app_has_setProviderError E) (emit (app_setProviderError msg)) ;;
  set_statusMessage ("error: " ++ msg).

(** [plugin.statusMessage = () => statusMessage] *)
Definition plugin_statusMessage (s : vars) : option string := statusMessage s.

(** [o.f] where [o] may be [undefined] or [null]: reading a property of
    either throws a TypeError. [what] names the expression. *)
Definition member {A} (what : string) (o : option A) : M A :=
  match o with
  | Some v => ret v
  | None => throw (TypeError what)
  end.

(** Reading an identifier that the file does not declare. *)
Definition global (x : string) : M string :=
  match globals E x with
  | Some v => ret v
  | None => throw (ReferenceError x)
  end.

(** Calling an identifier that the file does not declare: unbound it is a
    ReferenceError, and a string is not callable. *)
Definition call_global (f : string) : M unit :=
  match globals E f with
  | Some _ => throw (TypeError (f ++ " is not a function"))
  | None => throw (ReferenceError f)
  end.

(** [printRequestError(error, response)]: [error.message] is read first. *)
Definition printRequestError (error : option js_error)
    (response : option http_response) : M unit :=
  e <- member "error.message" error ;;
  setProviderError (message e) ;;
  emit (app_error ("error: " ++ message e)).

(** The observations pushed inside [if ( state.colormode ) { ... }]. *)
Definition color_values (p : string) (st : light_state) : list pathvalue :=
  match colormode st with
  | Some mode =>
      if negb (mode =? "") then
        ([ {| path := p ++ ".colorMode"; value := colorModeMap mode |} ]
        ++ (if truthy_optnum (hue st) && truthy_optnum (sat st) then
              [ {| path := p ++ ".hue";
                   value := JNum (to_number (hue st) / 182.04 / 360.0)%float |};
                {| path := p ++ ".saturation";
                   value := JNum (to_number (sat st) / 255.0)%float |} ]
            else [])
        ++ (if truthy_optnum (ct st) then
              [ {| path := p ++ ".temperature";
                   value := JNum (1000000.0 / to_number (ct st))%float |} ]
            else [])
        ++ (match xy st with
            | Some c =>
                [ {| path := p ++ ".cie";
                     value := JObj [ ("x", of_optnum (nth_error c 0));
                                     ("y", of_optnum (nth_error c 1)) ] |} ]
            | None => []
            end))%list
      else []
  | None => []
  end.

(** The body of the [forEach] callback up to the [values] array: the
    observations of one record. [camelCase(undefined)] throws a TypeError. *)
Definition translate (l : light) : M (list pathvalue) :=
  let displayName := name l in
  kind <- global "hueType" ;;
  segment <- member "camelCase(displayName)" (option_map (camelCase E) displayName) ;;
  let p := base ++ "." ++ kind ++ "." ++ segment in
  hueType <- global "hueType" ;;
  src <- (if hueType =? "groups" then
            ls <- member "light.state.any_on" (state l) ;;
            ret (action l, any_on ls)
          else
            ls <- member "light.state.on" (state l) ;;
            ret (state l, on ls)) ;;
  st <- member "state.bri" (fst src) ;;
  ret ([ {| path := p ++ ".state"; value := of_optbool (snd src) |};
         {| path := p ++ ".dimmingLevel";
            value := JNum (to_number (bri st) / 255.0)%float |};
         {| path := p ++ ".meta";
            value := JObj [ ("type", JStr "dimmer");
                            ("displayName", of_optstr displayName);
                            ("hueModel", of_optstr (modelid l));
                            ("canDimWhenOff", JBool false) ] |} ]
       ++ color_values p st)%list.

(** One turn of the [forEach]: translate the record, hand its observations to
    the host in a delta of their own. *)
Definition publish_light (kv : string * light) : M unit :=
  vals <- translate (snd kv) ;;
  emit (app_handleMessage plugin_id {| updates := [ {| values := vals |} ] |}).

(** [!error && response.statusCode === 200] *)
Definition fetched (error : option js_error)
    (response : option http_response) : M bool :=
  match error with
  | Some _ => ret false
  | None =>
      r <- member "response.statusCode" response ;;
      ret (statusCode r =? 200)%Z
  end.

(** The callback [(error, response, body) => { ... }] that [loadInfo(props, ip)]
    gives to [request]. *)
Definition on_response (ip : string) (error : option js_error)
    (response : option http_response) (body : raw_state) : M unit :=
  ok <- fetched error response ;;
  if ok then
    setProviderStatus ("Connected to " ++ ip) ;;
    sent <- read sentUnavailableAlarm ;;
    when (truthy_optbool sent)
      (set_sentUnavailableAlarm false ;;
       emit (app_handleMessage plugin_id
               (getAlarmDelta alarm_path "normal"
                  "The DAQ module is now available"))) ;;
    forEach publish_light body
  else
    emit (app_handleMessage plugin_id
            (getAlarmDelta alarm_path "alert"
               "The DAQ module is unavailable")) ;;
    set_sentUnavailableAlarm true ;;
    printRequestError error response.

(** [loadInfo(props, ip)] up to the point where it returns: the GET is
    issued; its callback runs in a later turn. *)
Definition loadInfo (p : props) (ip : string) : M unit :=
  emit (request ("http://" ++ ip ++ "/state.xml") "GET").

(** [(props.refreshRate || 5) * 1000] *)
Definition period (p : props) : float :=
  ((if truthy_optnum (refreshRate p) then to_number (refreshRate p) else 5)
   * 1000)%float.

(** [let timer = setInterval(() => { loadInfo(props, ip) }, ms)] *)
Definition arm (p : props) (ip : string) (ms : float) : M nat :=
  h <- read next_handle ;;
  let t := {| handle := h; period_ms := ms;
              timer_props := p; timer_ip := ip |} in
  write (fun s => {| statusMessage := statusMessage s;
                     sentUnavailableAlarm := sentUnavailableAlarm s;
                     onStop := onStop s;
                     timers := (timers s ++ [t])%list;
                     next_handle := S h |}) ;;
  emit (setInterval t) ;;
  ret h.

(** [startLoading(props, ip)] *)
Definition startLoading (p : props) (ip : string) : M unit :=
  call_global "load" ;;
  h <- arm p ip (period p) ;;
  write (fun s => {| statusMessage := statusMessage s;
                     sentUnavailableAlarm := sentUnavailableAlarm s;
                     onStop := (onStop s ++ [h])%list;
                     timers := timers s;
                     next_handle := next_handle s |}).

(** [plugin.start] *)
Definition plugin_start (p : props) : M unit := startLoading p (address p).

(** [() => clearInterval(timer)] *)
Definition disarm (h : nat) : M unit :=
  write (fun s => {| statusMessage := statusMessage s;
                     sentUnavailableAlarm := sentUnavailableAlarm s;
                     onStop := onStop s;
                     timers := filter (fun t => negb (handle t =? h)%nat) (timers s);
                     next_handle := next_handle s |}) ;;
  emit (clearInterval h).

(** [plugin.stop] *)
Definition plugin_stop : M unit :=
  fs <- read onStop ;;
  forEach disarm fs.

(** One firing of an armed interval. *)
Definition fire (t : timer) : M unit :=
  loadInfo (timer_props t) (timer_ip t).

End Plugin.

(** ** Turns of the event loop *)

(** The three arguments [request] passes to the callback. *)
Record reply : Type := {
  error : option js_error;
  response : option http_response;
  body : raw_state
}.

(** What can happen to the plugin, one turn of the event loop at a time: the
    host calls [plugin.start(p)] or [plugin.stop()], an armed interval fires,
    or [request] calls back the callback of a [loadInfo(props, ip)]. *)
Inductive turn : Type :=
| Start (p : props)
| Stop
| Fire (h : nat)
| Response (ip : string) (r : reply).

Definition turn_run (E : env) (t : turn) : M unit :=
  match t with
  | Start p => plugin_start E p
  | Stop => plugin_stop
  | Fire h =>
      armed <- read timers ;;
      match find (fun t => (handle t =? h)%nat) armed with
      | Some t => fire t
      | None => ret tt
      end
  | Response ip r => on_response E ip (error r) (response r) (body r)
  end.

(** The turns in order. A turn that throws keeps what it wrote and called; the
    later turns are those the host still runs. *)
Fixpoint play (E : env) (ts : list turn) (s : vars) : vars * list call :=
  match ts with
  | [] => (s, [])
  | t :: rest =>
      match turn_run E t s with
      | (_, s1, c1) =>
          match play E rest s1 with
          | (s2, c2) => (s2, (c1 ++ c2)%list)
          end
      end
  end.

Definition is_response (t : turn) : bool :=
  match t with Response _ _ => true | _ => false end.

(** ** Reading what was published *)

Definition observations_of (c : call) : list pathvalue :=
  match c with
  | app_handleMessage _ d => flat_map values (updates d)
  | _ => []
  end.

(** Every observation handed to [app.handleMessage], oldest first. *)
Definition observations (cs : list call) : list pathvalue :=
  flat_map observations_of cs.

Definition is_alarm (o : pathvalue) : bool := path o =? alarm_path.

Definition alarm_observations (cs : list call) : list pathvalue :=
  filter is_alarm (observations cs).

Definition alert_observation : pathvalue :=
  {| path := "notifications.redhead.daqUnavailable";
     value := JObj [ ("state", JStr "alert");
                     ("method", JArr [JStr "visual"; JStr "sound"]);
                     ("message", JStr "The DAQ module is unavailable") ] |}.

Definition normal_observation : pathvalue :=
  {| path := "notifications.redhead.daqUnavailable";
     value := JObj [ ("state", JStr "normal");
                     ("method", JArr [JStr "visual"; JStr "sound"]);
                     ("message", JStr "The DAQ module is now available") ] |}.

(** The value published at path [p], if an observation has that path. *)
Definition published_at (p : string) (os : list pathvalue) : option jsval :=
  option_map value (find (fun o => path o =? p) os).

(** The object whose [bri] and colour fields are read and the value published
    as [.state], for a record of the collection [kind]: [action] and
    [state.any_on] in "groups", [state] and [state.on] elsewhere. [None] when
    the record lacks an object that is read. *)
Definition effective (kind : string) (l : light)
    : option (light_state * option bool) :=
  if kind =? "groups" then
    match state l, action l with
    | Some ls, Some a => Some (a, any_on ls)
    | _, _ => None
    end
  else
    match state l with
    | Some ls => Some (ls, on ls)
    | None => None
    end.

(** The record has all that its translation reads. *)
Definition readable (kind : string) (l : light) : bool :=
  match name l, effective kind l with
  | Some _, Some _ => true
  | _, _ => false
  end.

(** A failing fetch: a transport error, or a reply whose status is not 200. *)
Definition failed (r : reply) : bool :=
  match error r, response r with
  | Some _, _ => true
  | None, Some h => negb (statusCode h =? 200)%Z
  | None, None => false
  end.

(** A successful fetch: no error and status 200. *)
Definition succeeded (r : reply) : bool :=
  match error r, response r with
  | None, Some h => (statusCode h =? 200)%Z
  | _, _ => false
  end.

(** The alarm observations a sequence of turns is due, from the replies
    alone: an alert for every failing fetch, a normal for every successful
    fetch that follows a failing one. [unavailable] tells whether the alarm
    is raised when the turns begin. *)
Fixpoint due_alarms (unavailable : bool) (ts : list turn) : list pathvalue :=
  match ts with
  | [] => []
  | Response _ r :: rest =>
      if failed r then alert_observation :: due_alarms true rest
      else if succeeded r then
        ((if unavailable then [normal_observation] else [])
           ++ due_alarms false rest)%list
      else due_alarms unavailable rest
  | _ :: rest => due_alarms unavailable rest
  end.

(** The observation's value is an object whose first member is
    [state: "alert"]. *)
Definition is_alert (o : pathvalue) : bool :=
  match value o with
  | JObj (("state", JStr st) :: _) => st =? "alert"
  | _ => false
  end.

(** The turn is the callback of a failing fetch. *)
Definition failing_turn (t : turn) : bool :=
  match t with
  | Response _ r => failed r
  | _ => false
  end.

(** [|x - y| < tol] on numbers. *)
Definition within (tol x y : float) : bool :=
  PrimFloat.ltb (PrimFloat.abs (x - y)%float) tol.

(** ** Sample data *)

Definition lower (c : ascii) : ascii :=
  let n := nat_of_ascii c in
  if ((65 <=? n) && (n <=? 90))%nat then ascii_of_nat (n + 32) else c.

(** What [camelCase] does to a single capitalised word: its first letter is
    lowered. Used where a statement is run on sample data. *)
Definition lower_first (s : string) : string :=
  match s with
  | EmptyString => EmptyString
  | String c rest => String (lower c) rest
  end.

(** A Node process as it is: neither [load] nor [hueType] is bound. *)
Definition node_env : env :=
  {| camelCase := lower_first;
     globals := fun _ => None;
     app_has_setProviderStatus := true;
     app_has_setProviderError := true |}.

(** A process whose global scope binds [hueType] to [kind]. *)
Definition hue_env (kind : string) : env :=
  {| camelCase := lower_first;
     globals := fun x => if x =? "hueType" then Some kind else None;
     app_has_setProviderStatus := true;
     app_has_setProviderError := true |}.

Definition no_state : light_state :=
  {| on := None; any_on := None; bri := None; colormode := None;
     hue := None; sat := None; ct := None; xy := None |}.

(** [{name: "Lamp1", state: {on: true, bri: 128, colormode: "hs", hue: 10000,
    sat: 200}}] *)
Definition lamp1 : light :=
  {| name := Some "Lamp1"; modelid := None;
     state := Some {| on := Some true; any_on := None; bri := Some 128%float;
                      colormode := Some "hs"; hue := Some 10000%float;
                      sat := Some 200%float; ct := None; xy := None |};
     action := None |}.

(** [{name: "Salon", state: {any_on: false}, action: {bri: 254}}] *)
Definition salon : light :=
  {| name := Some "Salon"; modelid := None;
     state := Some {| on := None; any_on := Some false; bri := None;
                      colormode := None; hue := None; sat := None;
                      ct := None; xy := None |};
     action := Some {| on := Some true; any_on := None; bri := Some 254%float;
                       colormode := None; hue := None; sat := None;
                       ct := None; xy := None |} |}.

(** [{name: "Strip", state: {on: true, bri: 200, colormode: "rgb"}}] *)
Definition strip : light :=
  {| name := Some "Strip"; modelid := None;
     state := Some {| on := Some true; any_on := None; bri := Some 200%float;
                      colormode := Some "rgb"; hue := None; sat := None;
                      ct := None; xy := None |};
     action := None |}.

(** [{name: "Desk", state: {on: true, bri: 200, ct: 366}}] *)
Definition desk : light :=
  {| name := Some "Desk"; modelid := None;
     state := Some {| on := Some true; any_on := None; bri := Some 200%float;
                      colormode := None; hue := None; sat := None;
                      ct := Some 366%float; xy := None |};
     action := None |}.

(** [{name: "Desk", state: {on: true, bri: 200, colormode: "ct", ct: 366}}] *)
Definition desk_ct : light :=
  {| name := Some "Desk"; modelid := None;
     state := Some {| on := Some true; any_on := None; bri := Some 200%float;
                      colormode := Some "ct"; hue := None; sat := None;
                      ct := Some 366%float; xy := None |};
     action := None |}.

Definition refused : reply :=
  {| error := Some {| message := "connect ECONNREFUSED" |};
     response := None; body := [] |}.

Definition status_500 : reply :=
  {| error := None; response := Some {| statusCode := 500 |}; body := [] |}.

Definition ok_with (b : raw_state) : reply :=
  {| error := None; response := Some {| statusCode := 200 |}; body := b |}.

(** The closure after a failing fetch: the alarm is raised. *)
Definition unavailable : vars :=
  {| statusMessage := Some "error: connect ECONNREFUSED";
     sentUnavailableAlarm := Some true;
     onStop := []; timers := []; next_handle := 0 |}.

Definition default_props : props :=
  {| address := "192.168.1.20"; refreshRate := None |}.

(** ** Reading a whole run *)

(** The observation's value is an object whose first member is
    [state: "normal"]. *)
Definition is_normal (o : pathvalue) : bool :=
  match value o with
  | JObj (("state", JStr st) :: _) => st =? "normal"
  | _ => false
  end.

(** Whether the alarm stands raised after the alarm observations [os], given
    whether it did before them: the latest observation decides. *)
Fixpoint raised_after (raised : bool) (os : list pathvalue) : bool :=
  match os with
  | [] => raised
  | o :: rest => raised_after (is_alert o) rest
  end.

(** Every observation of [os] is an alert or a normal, and every normal comes
    while the alarm stands raised. *)
Fixpoint paired (raised : bool) (os : list pathvalue) : bool :=
  match os with
  | [] => true
  | o :: rest =>
      if is_alert o then paired true rest
      else is_normal o && raised && paired false rest
  end.

(** The observations that are not alarm observations. *)
Definition record_observations (cs : list call) : list pathvalue :=
  filter (fun o => negb (is_alarm o)) (observations cs).

(** The status message a sequence of turns leaves, from the replies alone:
    a successful fetch sets the connection message, a transport error the
    error message, anything else keeps what was there. *)
Fixpoint status_after (prev : option string) (ts : list turn)
    : option string :=
  match ts with
  | [] => prev
  | Response ip r :: rest =>
      if succeeded r then status_after (Some ("Connected to " ++ ip)) rest
      else match error r with
           | Some e => status_after (Some ("error: " ++ message e)) rest
           | None => status_after prev rest
           end
  | _ :: rest => status_after prev rest
  end.

(** The calls that report a status or an error to the host. *)
Definition is_note (c : call) : bool :=
  match c with
  | app_setProviderStatus _ | app_setProviderError _ | app_error _ => true
  | _ => false
  end.

(** The reports a sequence of turns is due, from the replies and from what
    the host offers. *)
Fixpoint due_notes (E : env) (ts : list turn) : list call :=
  match ts with
  | [] => []
  | Response ip r :: rest =>
      ((if succeeded r then
          if app_has_setProviderStatus E
          then [app_setProviderStatus ("Connected to " ++ ip)] else []
        else
          match error r with
          | Some e =>
              (if app_has_setProviderError E
               then [app_setProviderError (message e)] else [])
                ++ [app_error ("error: " ++ message e)]
          | None => []
          end) ++ due_notes E rest)%list
  | _ :: rest => due_notes E rest
  end.

(** The calls made on the host object [app]. *)
Definition is_app_call (c : call) : bool :=
  match c with
  | app_handleMessage _ _ | app_setProviderStatus _
  | app_setProviderError _ | app_error _ => true
  | _ => false
  end.

(** The call hands the host a delta of the plugin with a single update. *)
Definition is_single_update (c : call) : bool :=
  match c with
  | app_handleMessage id {| updates := [_] |} => id =? "signalk-redhead-daq"
  | app_handleMessage _ _ => false
  | _ => true
  end.

(** The handle is one of those [onStop] holds. *)
Definition remembered (hs : list nat) (t : timer) : bool :=
  existsb (Nat.eqb (handle t)) hs.

(** The last segments a batch can have, in the order they are pushed. *)
Definition attributes : list string :=
  [".state"; ".dimmingLevel"; ".meta"; ".colorMode"; ".hue"; ".saturation";
   ".temperature"; ".cie"].

(** [{name: "Spot", state: {on: true, bri: 254, colormode: "xy",
    hue: 0, sat: 140, xy: [0.4571]}}] *)
Definition spot : light :=
  {| name := Some "Spot"; modelid := Some "LCT001";
     state := Some {| on := Some true; any_on := None; bri := Some 254%float;
                      colormode := Some "xy"; hue := Some 0%float;
                      sat := Some 140%float; ct := None;
                      xy := Some [0.4571%float] |};
     action := None |}.

(** A record without any field, as a character of an unparsed body is. *)
Definition blank : light :=
  {| name := None; modelid := None; state := None; action := None |}.

(** The call arms an interval. *)
Definition is_arming (c : call) : bool :=
  match c with setInterval _ => true | _ => false end.

(** [startLoading(props, ip)] after its first statement: the interval is
    armed and the closure that clears it is pushed on [onStop]. *)
Definition startLoading_tail (p : props) (ip : string) : M unit :=
  h <- arm p ip (period p) ;;
  write (fun s => {| statusMessage := statusMessage s;
                     sentUnavailableAlarm := sentUnavailableAlarm s;
                     onStop := (onStop s ++ [h])%list;
                     timers := timers s;
                     next_handle := next_handle s |}).

(** Every armed interval has a handle that [setInterval] has already given
    out. *)
Definition handles_given (s : vars) : bool :=
  forallb (fun t => (handle t <? next_handle s)%nat) (timers s).

(** The record can be translated: [hueType] is bound and the record has all
    that is read. *)
Definition translates (E : env) (l : light) : bool :=
  match globals E "hueType" with
  | Some kind => readable kind l
  | None => false
  end.

(** The turns that end with an exception, from the turn alone. *)
Definition turn_throws (E : env) (t : turn) : bool :=
  match t with
  | Start _ => true
  | Stop | Fire _ => false
  | Response _ r =>
      match error r, response r with
      | Some _, _ => false
      | None, None => true
      | None, Some h =>
          if (statusCode h =? 200)%Z
          then negb (forallb (fun kv => translates E (snd kv)) (body r))
          else true
      end
  end.

(** ** Proof steps *)

(** The guard of the callback, once the reply is known to carry a response. *)
Ltac run_guard H :=
  unfold fetched, member, bind, ret; rewrite H.

(** Distinctness of a list of string literals. *)
Ltac distinct_strings :=
  repeat (constructor; [cbn; intuition discriminate|]); constructor.

(** The last segments of a list of paths under one prefix. *)
Ltac suffixes l :=
  lazymatch l with
  | nil => constr:(@nil string)
  | (append _ ?a) :: ?r => let r' := suffixes r in constr:(a :: r')
  end.

(** Every path of the batch ends with one of the attribute names. *)
Ltac attribute_paths :=
  repeat (constructor; [eexists; split; [|reflexivity]; cbn; tauto|]);
  constructor.

(** * Properties *)

(** ** The monad and the lists of calls *)

Lemma bind_assoc {A B C} (m : M A) (f : A -> M B) (g : B -> M C) s :
  bind (bind m f) g s = bind m (fun a => bind (f a) g) s.
Proof.
  unfold bind. destruct (m s) as [[[a|e] s1] c1]; [|reflexivity].
  destruct (f a s1) as [[[b|e] s2] c2]; [|reflexivity].
  destruct (g b s2) as [[r s3] c3]. now rewrite app_assoc.
Qed.

Lemma bind_ext {A B} (m : M A) (f g : A -> M B) s :
  (forall a s', f a s' = g a s') -> bind m f s = bind m g s.
Proof.
  intros H. unfold bind. destruct (m s) as [[[a|e] s1] c1]; [|reflexivity].
  now rewrite H.
Qed.

Lemma forEach_app {A} (f : A -> M unit) xs ys s :
  forEach f (xs ++ ys) s = (forEach f xs ;; forEach f ys) s.
Proof.
  revert s. induction xs as [|x xs IH]; intros s; cbn [forEach app].
  - unfold bind, ret. destruct (forEach f ys s) as [[r s'] cs]. reflexivity.
  - rewrite bind_assoc. apply bind_ext. intros _ s'. apply IH.
Qed.

Lemma filter_none {A} (f : A -> bool) l :
  Forall (fun o => f o = false) l -> filter f l = [].
Proof.
  induction 1 as [|x l Hx _ IH]; [reflexivity|].
  cbn. now rewrite Hx.
Qed.

Lemma observations_app cs1 cs2 :
  observations (cs1 ++ cs2) = (observations cs1 ++ observations cs2)%list.
Proof. apply flat_map_app. Qed.

Lemma alarm_observations_app cs1 cs2 :
  alarm_observations (cs1 ++ cs2)
  = (alarm_observations cs1 ++ alarm_observations cs2)%list.
Proof.
  unfold alarm_observations. rewrite observations_app. apply filter_app.
Qed.

(** Two paths under one prefix are equal exactly when their last segments
    are. *)
Lemma append_eqb_l p a b : (p ++ a =? p ++ b) = (a =? b).
Proof.
  induction p as [|c p IH]; [reflexivity|].
  cbn. rewrite Ascii.eqb_refl. exact IH.
Qed.

Lemma published_at_skip p a b v rest :
  (a =? b) = false ->
  published_at (p ++ b) ({| path := p ++ a; value := v |} :: rest)
  = published_at (p ++ b) rest.
Proof.
  intros H. unfold published_at. cbn [find path].
  now rewrite append_eqb_l, H.
Qed.

Lemma published_at_here p a v rest :
  published_at (p ++ a) ({| path := p ++ a; value := v |} :: rest) = Some v.
Proof.
  unfold published_at. cbn [find path]. now rewrite String.eqb_refl.
Qed.

(** ** One record *)

Section Translation.

Variable E : env.

(** No observation below [electrical.] is an alarm observation. *)
Lemma color_values_not_alarm p st :
  Forall (fun o => is_alarm o = false) (color_values (String "e" p) st).
Proof.
  unfold color_values.
  destruct (colormode st) as [mode|]; [|constructor].
  destruct (negb (mode =? "")); [|constructor].
  repeat (apply Forall_app; split); try (constructor; [reflexivity|]).
  - constructor.
  - destruct (_ && _); repeat (constructor; [reflexivity|]); constructor.
  - destruct (truthy_optnum _); repeat (constructor; [reflexivity|]); constructor.
  - destruct (xy st); repeat (constructor; [reflexivity|]); constructor.
Qed.

(** [translate] neither writes a variable nor makes a call. *)
Lemma translate_pure l s :
  translate E l s = (fst (fst (translate E l initial)), s, []).
Proof.
  unfold translate, global, member, bind, ret, throw.
  destruct (globals E "hueType") as [k|]; [|reflexivity].
  destruct (name l) as [n|]; [|reflexivity]. cbn [option_map].
  destruct (k =? "groups"); destruct (state l) as [ls|]; try reflexivity;
    cbn [fst snd]; destruct (action l) as [a|]; try reflexivity.
Qed.

Lemma translate_not_alarm l s vals s' cs :
  translate E l s = (Normal vals, s', cs) ->
  Forall (fun o => is_alarm o = false) vals.
Proof.
  unfold translate, global, member, bind, ret, throw.
  destruct (globals E "hueType") as [k|]; [|discriminate].
  destruct (name l) as [n|]; [|discriminate]. cbn [option_map].
  destruct (k =? "groups"); destruct (state l) as [ls|]; try discriminate;
    cbn [fst snd]; try (destruct (action l) as [a|]; try discriminate);
    intros H; inversion H; subst; clear H;
    repeat (constructor; [reflexivity|]);
    apply color_values_not_alarm.
Qed.

(** The observations of a readable record, once [hueType] is bound. *)
Lemma translate_readable kind l n st sw s :
  globals E "hueType" = Some kind ->
  name l = Some n ->
  effective kind l = Some (st, sw) ->
  translate E l s =
    (Normal
       ({| path := (base ++ "." ++ kind ++ "." ++ camelCase E n) ++ ".state";
           value := of_optbool sw |}
        :: {| path := (base ++ "." ++ kind ++ "." ++ camelCase E n)
                        ++ ".dimmingLevel";
              value := JNum (to_number (bri st) / 255.0)%float |}
        :: {| path := (base ++ "." ++ kind ++ "." ++ camelCase E n) ++ ".meta";
              value := JObj [ ("type", JStr "dimmer");
                              ("displayName", JStr n);
                              ("hueModel", of_optstr (modelid l));
                              ("canDimWhenOff", JBool false) ] |}
        :: color_values (base ++ "." ++ kind ++ "." ++ camelCase E n) st),
     s, []).
Proof.
  intros G N Ef. unfold translate, global, member, bind, ret, throw.
  rewrite G, N. cbn [option_map]. unfold effective in Ef.
  destruct (kind =? "groups").
  - destruct (state l) as [ls|]; [|discriminate].
    destruct (action l) as [a|]; [|discriminate].
    injection Ef as <- <-. reflexivity.
  - destruct (state l) as [ls|]; [|discriminate].
    injection Ef as <- <-. reflexivity.
Qed.

Lemma publish_readable kind kv n st sw s :
  globals E "hueType" = Some kind ->
  name (snd kv) = Some n ->
  effective kind (snd kv) = Some (st, sw) ->
  exists rest,
    publish_light E kv s =
      (Normal tt, s,
       [ app_handleMessage plugin_id
           {| updates := [ {| values :=
                {| path := (base ++ "." ++ kind ++ "." ++ camelCase E n)
                             ++ ".state";
                   value := of_optbool sw |}
                :: {| path := (base ++ "." ++ kind ++ "." ++ camelCase E n)
                                ++ ".dimmingLevel";
                      value := JNum (to_number (bri st) / 255.0)%float |}
                :: {| path := (base ++ "." ++ kind ++ "." ++ camelCase E n)
                                ++ ".meta";
                      value := JObj [ ("type", JStr "dimmer");
                                      ("displayName", JStr n);
                                      ("hueModel", of_optstr (modelid (snd kv)));
                                      ("canDimWhenOff", JBool false) ] |}
                :: rest |} ] |} ])
    /\ rest = color_values (base ++ "." ++ kind ++ "." ++ camelCase E n) st.
Proof.
  intros G N Ef. eexists; split; [|reflexivity].
  unfold publish_light, bind.
  rewrite (translate_readable kind _ n st sw s G N Ef). reflexivity.
Qed.

Lemma readable_inv kind l :
  readable kind l = true ->
  exists n st sw, name l = Some n /\ effective kind l = Some (st, sw).
Proof.
  unfold readable. destruct (name l) as [n|]; [|discriminate].
  destruct (effective kind l) as [[st sw]|]; [|discriminate].
  intros _. now exists n, st, sw.
Qed.

(** Publishing a record leaves the variables alone and publishes no alarm
    observation, whether it returns or throws. *)
Lemma publish_light_quiet kv s :
  exists r cs,
    publish_light E kv s = (r, s, cs) /\ alarm_observations cs = [].
Proof.
  unfold publish_light, bind. rewrite translate_pure.
  destruct (translate E (snd kv) initial) as [[r s0] cs0] eqn:T.
  cbn [fst]. destruct r as [vals|e].
  - cbn. eexists _, _; split; [reflexivity|].
    unfold alarm_observations, observations. cbn. rewrite !app_nil_r.
    apply filter_none. eapply translate_not_alarm; eassumption.
  - eexists _, _; split; reflexivity.
Qed.

Lemma forEach_publish_quiet b s :
  exists r cs,
    forEach (publish_light E) b s = (r, s, cs) /\ alarm_observations cs = [].
Proof.
  induction b as [|kv b IH]; cbn [forEach].
  - eexists _, _; split; reflexivity.
  - unfold bind.
    destruct (publish_light_quiet kv s) as (r1 & c1 & -> & Q1).
    destruct r1 as [[]|e].
    + destruct IH as (r2 & c2 & -> & Q2).
      eexists _, _; split; [reflexivity|].
      rewrite alarm_observations_app, Q1, Q2. reflexivity.
    + eexists _, _; split; [reflexivity|]. exact Q1.
Qed.

Lemma forEach_readable kind b s :
  globals E "hueType" = Some kind ->
  forallb (fun kv => readable kind (snd kv)) b = true ->
  exists cs, forEach (publish_light E) b s = (Normal tt, s, cs).
Proof.
  intros G. induction b as [|kv b IH]; cbn [forEach forallb].
  - intros _. now eexists.
  - intros H. apply andb_true_iff in H as [Hkv Hb].
    destruct (readable_inv _ _ Hkv) as (n & st & sw & N & Ef).
    destruct (publish_readable kind kv n st sw s G N Ef) as (rest & P & _).
    destruct (IH Hb) as (cs & F).
    unfold bind. rewrite P, F. now eexists.
Qed.

(** The [forEach] reaches a readable record that only readable records
    precede. *)
Lemma forEach_reaches kind pre kv post n st sw s :
  globals E "hueType" = Some kind ->
  forallb (fun kv => readable kind (snd kv)) pre = true ->
  name (snd kv) = Some n ->
  effective kind (snd kv) = Some (st, sw) ->
  exists res ca cb,
    forEach (publish_light E) (pre ++ kv :: post) s
      = (res, s, (ca ++ snd (publish_light E kv s) ++ cb)%list).
Proof.
  intros G Hpre N Ef.
  destruct (forEach_readable kind pre s G Hpre) as (ca & Fa).
  destruct (publish_readable kind kv n st sw s G N Ef) as (rest & P & _).
  destruct (forEach_publish_quiet post s) as (res & cb & Fb & _).
  rewrite forEach_app. unfold bind. rewrite Fa. cbn [forEach].
  unfold bind. rewrite P, Fb.
  eexists _, _, _. reflexivity.
Qed.

End Translation.

(** ** One turn *)

Section Turns.

Variable E : env.

(** What a failing fetch does, whatever the alarm flag. *)
Lemma failed_response ip r s :
  failed r = true ->
  exists res s' cs,
    on_response E ip (error r) (response r) (body r) s = (res, s', cs)
    /\ observations cs = [alert_observation]
    /\ sentUnavailableAlarm s' = Some true
    /\ (error r = None ->
        res = Thrown (TypeError "error.message")
        /\ statusMessage s' = statusMessage s)
    /\ (forall e, error r = Some e ->
        res = Normal tt
        /\ statusMessage s' = Some ("error: " ++ message e)).
Proof.
  unfold failed, on_response. destruct (error r) as [e|].
  - intros _. cbn. unfold setProviderError, when.
    destruct (app_has_setProviderError E); cbn;
      (eexists _, _, _; split; [reflexivity|]);
      (split; [reflexivity|]); (split; [reflexivity|]);
      (split; [discriminate|]);
      intros e' [= <-]; split; reflexivity.
  - destruct (response r) as [h|]; [|discriminate].
    intros H. apply negb_true_iff in H.
    run_guard H. cbn.
    eexists _, _, _; split; [reflexivity|].
    split; [reflexivity|]. split; [reflexivity|].
    split; [intros _; split; reflexivity | discriminate].
Qed.

(** What a successful fetch does to the variables and to the alarm. *)
Lemma succeeded_response ip r s :
  succeeded r = true ->
  exists res s' cs,
    on_response E ip (error r) (response r) (body r) s = (res, s', cs)
    /\ statusMessage s' = Some ("Connected to " ++ ip)
    /\ sentUnavailableAlarm s'
       = (if truthy_optbool (sentUnavailableAlarm s) then Some false
          else sentUnavailableAlarm s)
    /\ alarm_observations cs
       = (if truthy_optbool (sentUnavailableAlarm s) then [normal_observation]
          else []).
Proof.
  unfold succeeded, on_response. destruct (error r); [discriminate|].
  destruct (response r) as [h|]; [|discriminate].
  intros H. run_guard H.
  unfold setProviderStatus, when, bind, read.
  destruct (app_has_setProviderStatus E); cbn;
    destruct (truthy_optbool (sentUnavailableAlarm s)) eqn:F; cbn;
    match goal with |- context [forEach (publish_light E) ?b ?s0] =>
      destruct (forEach_publish_quiet E b s0) as (r2 & c2 & -> & Q2) end;
    (eexists _, _, _; split; [reflexivity|]);
    (split; [reflexivity|]); (split; [cbn; now rewrite ?F|]);
    unfold alarm_observations, observations in *; cbn; rewrite ?Q2;
    reflexivity.
Qed.

(** The calls of a successful fetch end with those of the [forEach]. *)
Lemma succeeded_response_records ip r s :
  succeeded r = true ->
  exists res s' cs0 cs1,
    on_response E ip (error r) (response r) (body r) s
      = (res, s', (cs0 ++ cs1)%list)
    /\ forEach (publish_light E) (body r) s' = (res, s', cs1).
Proof.
  unfold succeeded, on_response. destruct (error r); [discriminate|].
  destruct (response r) as [h|]; [|discriminate].
  intros H. run_guard H.
  unfold setProviderStatus, when, bind, read.
  destruct (app_has_setProviderStatus E); cbn;
    destruct (truthy_optbool (sentUnavailableAlarm s)) eqn:F; cbn;
    match goal with |- context [forEach (publish_light E) ?b ?s0] =>
      destruct (forEach_publish_quiet E b s0) as (r2 & c2 & Q & _) end;
    rewrite Q; eexists _, _, _, _; (split; [|exact Q]);
    cbn [app]; try reflexivity.
  - instantiate (1 := [_; _]). reflexivity.
  - instantiate (1 := [_]). reflexivity.
  - instantiate (1 := [_]). reflexivity.
  - instantiate (1 := []). reflexivity.
Qed.

(** A reply with neither an error nor a response stops at the guard. *)
Lemma undecided_response ip r s :
  failed r = false -> succeeded r = false ->
  on_response E ip (error r) (response r) (body r) s
  = (Thrown (TypeError "response.statusCode"), s, []).
Proof.
  unfold failed, succeeded, on_response.
  destruct (error r); [discriminate|].
  destruct (response r) as [h|]; [|reflexivity].
  destruct (statusCode h =? 200)%Z; discriminate.
Qed.

Lemma forEach_disarm fs s :
  exists s' cs,
    forEach disarm fs s = (Normal tt, s', cs)
    /\ statusMessage s' = statusMessage s
    /\ sentUnavailableAlarm s' = sentUnavailableAlarm s
    /\ observations cs = [].
Proof.
  revert s. induction fs as [|h fs IH]; intros s; cbn [forEach].
  - eexists _, _. repeat split.
  - unfold bind at 1.
    destruct (disarm h s) as [[r1 s1] c1] eqn:D.
    unfold disarm, bind, write, emit in D. injection D as <- <- <-.
    match goal with |- context [forEach disarm fs ?s0] =>
      destruct (IH s0) as (s' & cs & -> & HS & HF & HO) end.
    eexists _, _. split; [reflexivity|]. cbn in *. auto.
Qed.

(** A turn other than a reply publishes nothing and leaves the status
    message and the alarm flag as they are. *)
Lemma quiet_turn t s :
  is_response t = false ->
  exists res s' cs,
    turn_run E t s = (res, s', cs)
    /\ statusMessage s' = statusMessage s
    /\ sentUnavailableAlarm s' = sentUnavailableAlarm s
    /\ observations cs = [].
Proof.
  destruct t as [p| |h|ip r]; cbn [is_response turn_run]; intros H;
    try discriminate.
  - unfold plugin_start, startLoading, call_global, bind, throw.
    destruct (globals E "load"); eexists _, _, _; repeat split.
  - unfold plugin_stop, bind, read.
    destruct (forEach_disarm (onStop s) s) as (s' & cs & -> & HS & HF & HO).
    eexists _, _, _. split; [reflexivity|]. auto.
  - unfold bind, read.
    destruct (find _ (timers s)); eexists _, _, _; repeat split.
Qed.

Lemma play_cons t rest s :
  play E (t :: rest) s
  = (fst (play E rest (snd (fst (turn_run E t s)))),
     (snd (turn_run E t s)
        ++ snd (play E rest (snd (fst (turn_run E t s)))))%list).
Proof.
  cbn [play]. destruct (turn_run E t s) as [[res s1] c1]. cbn [fst snd].
  now destruct (play E rest s1).
Qed.

End Turns.

(** ** Alarm tracking *)

(** C1, counterexample. The alarm is already raised ([sentUnavailableAlarm] is
    [true]) and a fetch fails with a transport error: the callback publishes
    the alert observation once more, so the number of alarm observations of
    that turn is not zero. *)
Lemma alert_repeated_while_unavailable :
  sentUnavailableAlarm unavailable = Some true
  /\ failed refused = true
  /\ alarm_observations
       (snd (on_response node_env "192.168.1.20" (error refused)
               (response refused) (body refused) unavailable))
     = [alert_observation]
  /\ length (alarm_observations
       (snd (on_response node_env "192.168.1.20" (error refused)
               (response refused) (body refused) unavailable))) <> 0.
Proof. repeat split; try reflexivity. cbn. discriminate. Qed.

(** The alerts among the due alarms are as many as the failing fetches. *)
Lemma alerts_of_due_alarms unavailable ts :
  length (filter is_alert (due_alarms unavailable ts))
  = length (filter failing_turn ts).
Proof.
  revert unavailable. induction ts as [|t rest IH]; intros u; [reflexivity|].
  destruct t as [p| |h|ip r]; cbn [due_alarms filter failing_turn];
    try apply IH.
  destruct (failed r).
  - cbn. now rewrite IH.
  - destruct (succeeded r); [|apply IH].
    rewrite filter_app, length_app, IH. now destruct u.
Qed.

(** C1, as amended. Across any sequence of turns, from any closure, the alarm
    observations published are exactly: one alert for every failing fetch,
    whether or not the alarm was already raised, and one normal for every
    successful fetch that finds the alarm raised. Only the normal observation
    is tied to a change of availability; the alert is published per failing
    fetch, so the alerts are as many as the failing fetches. *)
Theorem alarms_follow_replies E ts s :
  alarm_observations (snd (play E ts s))
  = due_alarms (truthy_optbool (sentUnavailableAlarm s)) ts
  /\ length (filter is_alert (alarm_observations (snd (play E ts s))))
     = length (filter failing_turn ts).
Proof.
  assert (G : forall s,
    alarm_observations (snd (play E ts s))
    = due_alarms (truthy_optbool (sentUnavailableAlarm s)) ts);
    [|split; [apply G | rewrite G; apply alerts_of_due_alarms]].
  clear s. induction ts as [|t rest IH]; intros s; [reflexivity|].
  rewrite play_cons. cbn [snd]. rewrite alarm_observations_app, IH.
  destruct (is_response t) eqn:R.
  - destruct t as [| | |ip r]; try discriminate. cbn [turn_run due_alarms].
    destruct (failed r) eqn:F.
    + destruct (failed_response E ip r s F)
        as (res & s' & cs & -> & HO & HF & _).
      cbn [fst snd]. unfold alarm_observations. rewrite HO, HF. reflexivity.
    + destruct (succeeded r) eqn:S.
      * destruct (succeeded_response E ip r s S)
          as (res & s' & cs & -> & _ & HF & HA).
        cbn [fst snd]. rewrite HA, HF.
        now destruct (truthy_optbool (sentUnavailableAlarm s)) eqn:T;
          cbn; rewrite ?T.
      * rewrite (undecided_response E ip r s F S). reflexivity.
  - destruct (quiet_turn E t s R) as (res & s' & cs & -> & _ & HF & HO).
    cbn [fst snd]. unfold alarm_observations. rewrite HO, HF.
    destruct t; try discriminate; reflexivity.
Qed.

(** C3. A fetch fails (transport error, or a status other than 200) while the
    alarm is not raised: the callback publishes exactly one observation, the
    alert at [notifications.redhead.daqUnavailable], and
    [sentUnavailableAlarm] is [true] afterwards (also when the callback then
    throws). *)
Theorem failing_fetch_while_available_raises_alert E ip r s :
  failed r = true ->
  truthy_optbool (sentUnavailableAlarm s) = false ->
  exists res s' cs,
    on_response E ip (error r) (response r) (body r) s = (res, s', cs)
    /\ alarm_observations cs
       = [ {| path := "notifications.redhead.daqUnavailable";
              value := JObj [ ("state", JStr "alert");
                              ("method", JArr [JStr "visual"; JStr "sound"]);
                              ("message",
                               JStr "The DAQ module is unavailable") ] |} ]
    /\ observations cs = alarm_observations cs
    /\ sentUnavailableAlarm s' = Some true.
Proof.
  intros F _.
  destruct (failed_response E ip r s F) as (res & s' & cs & H & HO & HF & _).
  exists res, s', cs. split; [exact H|].
  unfold alarm_observations. rewrite HO. repeat split. exact HF.
Qed.

(** C3, on a sample: a refused connection, from the initial closure. *)
Lemma failing_fetch_while_available_witness :
  failed refused = true
  /\ truthy_optbool (sentUnavailableAlarm initial) = false
  /\ exists res s' cs,
       on_response node_env "192.168.1.20" (error refused) (response refused)
         (body refused) initial = (res, s', cs)
       /\ alarm_observations cs
          = [ {| path := "notifications.redhead.daqUnavailable";
                 value := JObj [ ("state", JStr "alert");
                                 ("method", JArr [JStr "visual"; JStr "sound"]);
                                 ("message",
                                  JStr "The DAQ module is unavailable") ] |} ]
       /\ observations cs = alarm_observations cs
       /\ sentUnavailableAlarm s' = Some true.
Proof.
  split; [reflexivity|]. split; [reflexivity|].
  apply (failing_fetch_while_available_raises_alert node_env "192.168.1.20"
           refused initial); reflexivity.
Defined.

(** C4. A fetch succeeds. The status message becomes ["Connected to " ++ ip].
    When [sentUnavailableAlarm] is [true], exactly one alarm observation is
    published, the normal one with message "The DAQ module is now available",
    and the flag becomes [false]. Otherwise no alarm observation is published
    and the flag stays. *)
Theorem successful_fetch_clears_alarm_once E ip r s :
  succeeded r = true ->
  exists res s' cs,
    on_response E ip (error r) (response r) (body r) s = (res, s', cs)
    /\ plugin_statusMessage s' = Some ("Connected to " ++ ip)
    /\ (sentUnavailableAlarm s = Some true ->
        alarm_observations cs
        = [ {| path := "notifications.redhead.daqUnavailable";
               value := JObj [ ("state", JStr "normal");
                               ("method", JArr [JStr "visual"; JStr "sound"]);
                               ("message",
                                JStr "The DAQ module is now available") ] |} ]
        /\ sentUnavailableAlarm s' = Some false)
    /\ (sentUnavailableAlarm s <> Some true ->
        alarm_observations cs = []
        /\ sentUnavailableAlarm s' = sentUnavailableAlarm s).
Proof.
  intros S.
  destruct (succeeded_response E ip r s S) as (res & s' & cs & H & HS & HF & HA).
  exists res, s', cs. split; [exact H|]. split; [exact HS|].
  split.
  - intros T. rewrite T in HF, HA. cbn in HF, HA. now split.
  - intros T. destruct (sentUnavailableAlarm s) as [[|]|]; cbn in HF, HA;
      now split.
Qed.

(** C4, on a sample: a 200 reply with an empty body, the alarm being raised. *)
Lemma successful_fetch_clears_alarm_witness :
  succeeded (ok_with []) = true
  /\ exists res s' cs,
       on_response node_env "192.168.1.20" (error (ok_with []))
         (response (ok_with [])) (body (ok_with [])) unavailable = (res, s', cs)
       /\ plugin_statusMessage s' = Some "Connected to 192.168.1.20"
       /\ alarm_observations cs = [normal_observation]
       /\ sentUnavailableAlarm s' = Some false.
Proof.
  split; [reflexivity|].
  destruct (successful_fetch_clears_alarm_once node_env "192.168.1.20"
              (ok_with []) unavailable eq_refl)
    as (res & s' & cs & H & HS & HT & _).
  exists res, s', cs. split; [exact H|]. split; [exact HS|]. exact (HT eq_refl).
Defined.

(** C8, the code at a reply with status 500 and no error. The alert is
    published and the flag set, then [printRequestError] reads
    [error.message] on [null]: the callback throws a TypeError, and the status
    message is left as it was. *)
Theorem status_500_throws_before_status E ip b s :
  on_response E ip None (Some {| statusCode := 500 |}) b s
  = (Thrown (TypeError "error.message"),
     {| statusMessage := statusMessage s;
        sentUnavailableAlarm := Some true;
        onStop := onStop s; timers := timers s;
        next_handle := next_handle s |},
     [ app_handleMessage plugin_id
         (getAlarmDelta alarm_path "alert" "The DAQ module is unavailable") ]).
Proof. reflexivity. Qed.

(** ** Life cycle *)

(** C2, the code at any configuration. [startLoading] begins by calling
    [load], which the file never declares: [plugin.start] throws before a GET
    is issued and before [setInterval] is reached, whatever the global scope
    of the model binds; in a Node process the exception is a ReferenceError. *)
Theorem start_throws_before_fetching E p s :
  (exists e, plugin_start E p s = (Thrown e, s, []))
  /\ plugin_start node_env p s = (Thrown (ReferenceError "load"), s, []).
Proof.
  split; [|reflexivity].
  unfold plugin_start, startLoading, call_global, bind, throw.
  destruct (globals E "load"); eexists; reflexivity.
Qed.

(** The period [setInterval] would be given when [refreshRate] is missing:
    5000 milliseconds. *)
Lemma period_default a :
  period {| address := a; refreshRate := None |} = 5000%float.
Proof. reflexivity. Qed.

(** C10. [plugin.statusMessage()] returns [undefined] in the initial closure,
    and still does after any turns none of which is a reply ([plugin.start],
    [plugin.stop], a firing interval); such turns never change what it
    returns, so only the response callback gives the status a value. *)
Theorem status_undefined_until_a_response E ts :
  forallb (fun t => negb (is_response t)) ts = true ->
  plugin_statusMessage initial = None
  /\ plugin_statusMessage (fst (play E ts initial)) = None
  /\ forall s,
       plugin_statusMessage (fst (play E ts s)) = plugin_statusMessage s.
Proof.
  intros H. split; [reflexivity|].
  assert (G : forall s,
    plugin_statusMessage (fst (play E ts s)) = plugin_statusMessage s).
  { induction ts as [|t rest IH]; intros s; [reflexivity|].
    cbn [forallb] in H. apply andb_true_iff in H as [Ht Hrest].
    apply negb_true_iff in Ht.
    rewrite play_cons. cbn [fst]. rewrite (IH Hrest).
    destruct (quiet_turn E t s Ht) as (res & s' & cs & -> & HS & _).
    exact HS. }
  split; [apply G | exact G].
Qed.

(** C10, on a sample: start, a firing, stop. *)
Lemma status_undefined_witness :
  forallb (fun t => negb (is_response t))
    [Start default_props; Fire 0; Stop] = true
  /\ plugin_statusMessage
       (fst (play node_env [Start default_props; Fire 0; Stop] initial)) = None.
Proof.
  split; [reflexivity|].
  apply (status_undefined_until_a_response node_env
           [Start default_props; Fire 0; Stop] eq_refl).
Defined.

(** ** Translation of the records *)

(** C5, the code at a group record. The callback reads [hueType], which the
    file never declares: in a Node process the translation of any record
    throws a ReferenceError, and the 200 reply carrying the group record
    [salon] publishes no observation at all. *)
Theorem group_record_stops_at_hueType :
  (forall l s,
     translate node_env l s = (Thrown (ReferenceError "hueType"), s, []))
  /\ on_response node_env "192.168.1.20" None (Some {| statusCode := 200 |})
       [("1", salon)] initial
     = (Thrown (ReferenceError "hueType"),
        {| statusMessage := Some "Connected to 192.168.1.20";
           sentUnavailableAlarm := None;
           onStop := []; timers := []; next_handle := 0 |},
        [app_setProviderStatus "Connected to 192.168.1.20"]).
Proof. split; reflexivity. Qed.

(** C6, the code at a successful reply with at least one record. In a Node
    process the callback throws at the first record, on the undeclared
    [hueType]; whatever it has published by then is an alarm observation, so
    no record's batch is published. *)
Theorem no_record_is_published_without_hueType ip key l rest s :
  exists s' cs,
    on_response node_env ip None (Some {| statusCode := 200 |})
      ((key, l) :: rest) s
    = (Thrown (ReferenceError "hueType"), s', cs)
    /\ observations cs = alarm_observations cs.
Proof.
  unfold on_response, fetched, member, bind, ret. cbn.
  destruct (sentUnavailableAlarm s) as [[|]|]; cbn;
    eexists _, _; split; reflexivity.
Qed.

(** X1. What the translation does once the global scope binds [hueType] to
    [kind]: in a successful fetch, a readable record that only readable
    records precede has its own delta, which starts with [.state],
    [.dimmingLevel] and [.meta]; the effective state is [action] with
    [state.any_on] for "groups", [state] with [state.on] otherwise. *)
Lemma readable_record_is_published E kind ip r s pre key l post n st sw :
  globals E "hueType" = Some kind ->
  succeeded r = true ->
  body r = (pre ++ (key, l) :: post)%list ->
  forallb (fun kv => readable kind (snd kv)) pre = true ->
  name l = Some n ->
  effective kind l = Some (st, sw) ->
  exists res s' cs rest,
    on_response E ip (error r) (response r) (body r) s = (res, s', cs)
    /\ In (app_handleMessage "signalk-redhead-daq"
             {| updates := [ {| values :=
                  {| path := ("electrical.switches.hue." ++ kind ++ "."
                                ++ camelCase E n) ++ ".state";
                     value := of_optbool sw |}
                  :: {| path := ("electrical.switches.hue." ++ kind ++ "."
                                   ++ camelCase E n) ++ ".dimmingLevel";
                        value := JNum (to_number (bri st) / 255.0)%float |}
                  :: {| path := ("electrical.switches.hue." ++ kind ++ "."
                                   ++ camelCase E n) ++ ".meta";
                        value := JObj [ ("type", JStr "dimmer");
                                        ("displayName", JStr n);
                                        ("hueModel", of_optstr (modelid l));
                                        ("canDimWhenOff", JBool false) ] |}
                  :: rest |} ] |}) cs.
Proof.
  intros G S B Hpre N Ef.
  destruct (succeeded_response_records E ip r s S)
    as (res & s' & cs0 & cs1 & H & F).
  rewrite B in F.
  destruct (forEach_reaches E kind pre (key, l) post n st sw s' G Hpre N Ef)
    as (res' & ca & cb & F').
  destruct (publish_readable E kind (key, l) n st sw s' G N Ef)
    as (rest & P & _).
  rewrite P in F'. cbn [snd] in F'.
  pose proof (eq_trans (eq_sym F') F) as Q.
  apply (f_equal snd) in Q. cbn [snd] in Q. rewrite <- Q in H.
  eexists res, s', _, rest.
  split; [exact H|].
  apply in_or_app. right. apply in_or_app. right. left. reflexivity.
Qed.

(** X1, on a sample: the group record [salon] alone in a 200 reply, with
    [hueType] bound to "groups". *)
Lemma readable_record_is_published_witness :
  exists res s' cs rest,
    on_response (hue_env "groups") "192.168.1.20"
      (error (ok_with [("1", salon)])) (response (ok_with [("1", salon)]))
      (body (ok_with [("1", salon)])) initial = (res, s', cs)
    /\ In (app_handleMessage "signalk-redhead-daq"
             {| updates := [ {| values :=
                  {| path := "electrical.switches.hue.groups.salon.state";
                     value := JBool false |}
                  :: {| path := "electrical.switches.hue.groups.salon.dimmingLevel";
                        value := JNum (254 / 255.0)%float |}
                  :: {| path := "electrical.switches.hue.groups.salon.meta";
                        value := JObj [ ("type", JStr "dimmer");
                                        ("displayName", JStr "Salon");
                                        ("hueModel", JUndefined);
                                        ("canDimWhenOff", JBool false) ] |}
                  :: rest |} ] |}) cs.
Proof.
  exact (readable_record_is_published (hue_env "groups") "groups"
           "192.168.1.20" (ok_with [("1", salon)]) initial [] "1" salon []
           "Salon" _ _ eq_refl eq_refl eq_refl eq_refl eq_refl eq_refl).
Defined.

(** X2. The record [lamp1] once [hueType] is bound to "lights": its six
    observations, with the three ratios within 0.0005 of 0.502, 0.1524 and
    0.784. *)
Lemma lamp1_when_hueType_is_lights E s :
  globals E "hueType" = Some "lights" ->
  camelCase E "Lamp1" = "lamp1" ->
  translate E lamp1 s
  = (Normal
       [ {| path := "electrical.switches.hue.lights.lamp1.state";
            value := JBool true |};
         {| path := "electrical.switches.hue.lights.lamp1.dimmingLevel";
            value := JNum (128 / 255.0)%float |};
         {| path := "electrical.switches.hue.lights.lamp1.meta";
            value := JObj [ ("type", JStr "dimmer");
                            ("displayName", JStr "Lamp1");
                            ("hueModel", JUndefined);
                            ("canDimWhenOff", JBool false) ] |};
         {| path := "electrical.switches.hue.lights.lamp1.colorMode";
            value := JStr "hsb" |};
         {| path := "electrical.switches.hue.lights.lamp1.hue";
            value := JNum (10000 / 182.04 / 360.0)%float |};
         {| path := "electrical.switches.hue.lights.lamp1.saturation";
            value := JNum (200 / 255.0)%float |} ],
     s, [])
  /\ within 0.0005 (128 / 255.0) 0.502 = true
  /\ within 0.0005 (10000 / 182.04 / 360.0) 0.1524 = true
  /\ within 0.0005 (200 / 255.0) 0.784 = true.
Proof.
  intros G C. split; [|repeat split].
  rewrite (translate_readable E "lights" lamp1 "Lamp1" _ _ s G eq_refl eq_refl).
  rewrite C. reflexivity.
Qed.

(** X2, on a sample. *)
Lemma lamp1_witness :
  translate (hue_env "lights") lamp1 initial
  = (Normal
       [ {| path := "electrical.switches.hue.lights.lamp1.state";
            value := JBool true |};
         {| path := "electrical.switches.hue.lights.lamp1.dimmingLevel";
            value := JNum (128 / 255.0)%float |};
         {| path := "electrical.switches.hue.lights.lamp1.meta";
            value := JObj [ ("type", JStr "dimmer");
                            ("displayName", JStr "Lamp1");
                            ("hueModel", JUndefined);
                            ("canDimWhenOff", JBool false) ] |};
         {| path := "electrical.switches.hue.lights.lamp1.colorMode";
            value := JStr "hsb" |};
         {| path := "electrical.switches.hue.lights.lamp1.hue";
            value := JNum (10000 / 182.04 / 360.0)%float |};
         {| path := "electrical.switches.hue.lights.lamp1.saturation";
            value := JNum (200 / 255.0)%float |} ],
     initial, []).
Proof.
  exact (proj1 (lamp1_when_hueType_is_lights (hue_env "lights") initial
                  eq_refl eq_refl)).
Defined.

(** X3. The group record [salon] once [hueType] is bound to "groups": [.state]
    is [state.any_on], the brightness is that of [action]. *)
Lemma salon_when_hueType_is_groups E s :
  globals E "hueType" = Some "groups" ->
  camelCase E "Salon" = "salon" ->
  translate E salon s
  = (Normal
       [ {| path := "electrical.switches.hue.groups.salon.state";
            value := JBool false |};
         {| path := "electrical.switches.hue.groups.salon.dimmingLevel";
            value := JNum (254 / 255.0)%float |};
         {| path := "electrical.switches.hue.groups.salon.meta";
            value := JObj [ ("type", JStr "dimmer");
                            ("displayName", JStr "Salon");
                            ("hueModel", JUndefined);
                            ("canDimWhenOff", JBool false) ] |} ],
     s, []).
Proof.
  intros G C.
  rewrite (translate_readable E "groups" salon "Salon" _ _ s G eq_refl eq_refl).
  rewrite C. reflexivity.
Qed.

(** X3, on a sample. *)
Lemma salon_witness :
  translate (hue_env "groups") salon initial
  = (Normal
       [ {| path := "electrical.switches.hue.groups.salon.state";
            value := JBool false |};
         {| path := "electrical.switches.hue.groups.salon.dimmingLevel";
            value := JNum (254 / 255.0)%float |};
         {| path := "electrical.switches.hue.groups.salon.meta";
            value := JObj [ ("type", JStr "dimmer");
                            ("displayName", JStr "Salon");
                            ("hueModel", JUndefined);
                            ("canDimWhenOff", JBool false) ] |} ],
     initial, []).
Proof.
  exact (salon_when_hueType_is_groups (hue_env "groups") initial
           eq_refl eq_refl).
Defined.

(** C7, counterexample. The record [strip] has [colormode: "rgb"], which
    [colorModeMap] does not list: with [hueType] bound to "lights" its
    [.colorMode] observation is published with the value [undefined], not with
    a sentinel string. *)
Lemma unknown_colormode_is_undefined :
  colorModeMap "rgb" = JUndefined
  /\ translate (hue_env "lights") strip initial
     = (Normal
          [ {| path := "electrical.switches.hue.lights.strip.state";
               value := JBool true |};
            {| path := "electrical.switches.hue.lights.strip.dimmingLevel";
               value := JNum (200 / 255)%float |};
            {| path := "electrical.switches.hue.lights.strip.meta";
               value := JObj [ ("type", JStr "dimmer");
                               ("displayName", JStr "Strip");
                               ("hueModel", JUndefined);
                               ("canDimWhenOff", JBool false) ] |};
            {| path := "electrical.switches.hue.lights.strip.colorMode";
               value := JUndefined |} ],
        initial, []).
Proof. split; reflexivity. Qed.

(** C7, as amended. For a readable record whose effective state has a
    non-empty [colormode], once [hueType] is bound, a [.colorMode] observation
    is published with the value [colorModeMap[colormode]]: "hsb" for "hs",
    "temperature" for "ct", "cie" for "xy", and [undefined] for any other
    name that [Object.prototype] does not define. *)
Theorem colorMode_is_table_lookup E kind l n st sw mode s :
  globals E "hueType" = Some kind ->
  name l = Some n ->
  effective kind l = Some (st, sw) ->
  colormode st = Some mode ->
  mode <> "" ->
  exists vals,
    translate E l s = (Normal vals, s, [])
    /\ published_at
         (("electrical.switches.hue." ++ kind ++ "." ++ camelCase E n)
            ++ ".colorMode") vals
       = Some (colorModeMap mode)
    /\ (mode = "hs" -> colorModeMap mode = JStr "hsb")
    /\ (mode = "ct" -> colorModeMap mode = JStr "temperature")
    /\ (mode = "xy" -> colorModeMap mode = JStr "cie")
    /\ (mode <> "hs" -> mode <> "ct" -> mode <> "xy" ->
        ~ In mode object_prototype_members ->
        colorModeMap mode = JUndefined).
Proof.
  intros G N Ef C Hm.
  eexists. split; [apply (translate_readable E kind l n st sw s G N Ef)|].
  split.
  - change (base ++ "." ++ kind ++ "." ++ camelCase E n)
      with ("electrical.switches.hue." ++ kind ++ "." ++ camelCase E n).
    rewrite !published_at_skip by reflexivity.
    unfold color_values. rewrite C.
    apply String.eqb_neq in Hm. rewrite Hm. cbn [negb app].
    apply published_at_here.
  - repeat split; try (intros ->; reflexivity).
    intros H1 H2 H3 H4. unfold colorModeMap.
    apply String.eqb_neq in H1, H2, H3. rewrite H1, H2, H3.
    destruct (existsb (String.eqb mode) object_prototype_members) eqn:X;
      [|reflexivity].
    apply existsb_exists in X as (x & Hin & Hx).
    apply String.eqb_eq in Hx. subst x. contradiction.
Qed.

(** C7, on a sample: [lamp1], whose [colormode] is "hs". *)
Lemma colorMode_is_table_lookup_witness :
  exists vals,
    translate (hue_env "lights") lamp1 initial = (Normal vals, initial, [])
    /\ published_at "electrical.switches.hue.lights.lamp1.colorMode" vals
       = Some (JStr "hsb").
Proof.
  destruct (colorMode_is_table_lookup (hue_env "lights") "lights" lamp1
              "Lamp1" _ _ "hs" initial eq_refl eq_refl eq_refl eq_refl)
    as (vals & T & P & _).
  - discriminate.
  - exists vals. split; [exact T | exact P].
Defined.

(** C9, counterexample. The record [desk] has [ct: 366] and no [colormode]:
    the block that would push [.temperature] is not entered, and with
    [hueType] bound to "lights" the record is published without a
    [.temperature] observation. *)
Lemma ct_without_colormode_is_silent :
  option_map ct (state desk) = Some (Some 366%float)
  /\ (forall p st, colormode st = None -> color_values p st = [])
  /\ translate (hue_env "lights") desk initial
     = (Normal
          [ {| path := "electrical.switches.hue.lights.desk.state";
               value := JBool true |};
            {| path := "electrical.switches.hue.lights.desk.dimmingLevel";
               value := JNum (200 / 255)%float |};
            {| path := "electrical.switches.hue.lights.desk.meta";
               value := JObj [ ("type", JStr "dimmer");
                               ("displayName", JStr "Desk");
                               ("hueModel", JUndefined);
                               ("canDimWhenOff", JBool false) ] |} ],
        initial, []).
Proof.
  split; [reflexivity|]. split; [|reflexivity].
  intros p st H. unfold color_values. now rewrite H.
Qed.

(** C9, as amended. For a readable record, once [hueType] is bound, a
    [.temperature] observation is published exactly when the effective state
    has a non-empty [colormode] and a [ct] that is neither missing, zero nor
    NaN; its value is then [1000000.0 / ct]. *)
Theorem temperature_needs_colormode_and_ct E kind l n st sw s :
  globals E "hueType" = Some kind ->
  name l = Some n ->
  effective kind l = Some (st, sw) ->
  exists vals,
    translate E l s = (Normal vals, s, [])
    /\ published_at
         (("electrical.switches.hue." ++ kind ++ "." ++ camelCase E n)
            ++ ".temperature") vals
       = if truthy_optstr (colormode st) && truthy_optnum (ct st)
         then Some (JNum (1000000.0 / to_number (ct st))%float)
         else None.
Proof.
  intros G N Ef.
  eexists. split; [apply (translate_readable E kind l n st sw s G N Ef)|].
  change (base ++ "." ++ kind ++ "." ++ camelCase E n)
    with ("electrical.switches.hue." ++ kind ++ "." ++ camelCase E n).
  rewrite !published_at_skip by reflexivity.
  unfold color_values, truthy_optstr.
  destruct (colormode st) as [mode|]; [|reflexivity].
  destruct (negb (mode =? "")); [|reflexivity].
  cbn [app andb]. rewrite published_at_skip by reflexivity.
  destruct (truthy_optnum (hue st) && truthy_optnum (sat st)); cbn [app];
    rewrite ?published_at_skip by reflexivity;
    (destruct (truthy_optnum (ct st)); cbn [app];
     [apply published_at_here|]);
    (destruct (xy st); cbn [app];
     rewrite ?published_at_skip by reflexivity; reflexivity).
Qed.

(** C9, on a sample: [desk_ct], whose [colormode] is "ct" and [ct] 366. *)
Lemma temperature_witness :
  exists vals,
    translate (hue_env "lights") desk_ct initial = (Normal vals, initial, [])
    /\ published_at "electrical.switches.hue.lights.desk.temperature" vals
       = Some (JNum (1000000.0 / 366)%float).
Proof.
  destruct (temperature_needs_colormode_and_ct (hue_env "lights") "lights"
              desk_ct "Desk" _ _ initial eq_refl eq_refl eq_refl)
    as (vals & T & P).
  exists vals. split; [exact T | exact P].
Defined.

(** * Further properties *)

(** ** What a reply does, in full *)

Section Exact.

Variable E : env.

(** A transport error, in full. *)
Lemma transport_error_exact ip e resp b s :
  on_response E ip (Some e) resp b s
  = (Normal tt,
     {| statusMessage := Some ("error: " ++ message e);
        sentUnavailableAlarm := Some true;
        onStop := onStop s; timers := timers s;
        next_handle := next_handle s |},
     (app_handleMessage plugin_id
        (getAlarmDelta alarm_path "alert" "The DAQ module is unavailable")
      :: (if app_has_setProviderError E
          then [app_setProviderError (message e)] else [])
      ++ [app_error ("error: " ++ message e)])%list).
Proof.
  unfold on_response, fetched, printRequestError, setProviderError, when,
    member, bind, ret, emit, set_sentUnavailableAlarm, set_statusMessage, write.
  cbn. destruct (app_has_setProviderError E); reflexivity.
Qed.

(** A status other than 200 without an error, in full. *)
Lemma bad_status_exact ip h b s :
  (statusCode h =? 200)%Z = false ->
  on_response E ip None (Some h) b s
  = (Thrown (TypeError "error.message"),
     {| statusMessage := statusMessage s;
        sentUnavailableAlarm := Some true;
        onStop := onStop s; timers := timers s;
        next_handle := next_handle s |},
     [ app_handleMessage plugin_id
         (getAlarmDelta alarm_path "alert" "The DAQ module is unavailable") ]).
Proof.
  intros H. unfold on_response. run_guard H. reflexivity.
Qed.

(** Publishing a record neither reads nor writes the variables. *)
Lemma publish_light_pure kv s :
  publish_light E kv s
  = (fst (fst (publish_light E kv initial)), s,
     snd (publish_light E kv initial)).
Proof.
  unfold publish_light, bind.
  rewrite (translate_pure E (snd kv) s).
  rewrite (translate_pure E (snd kv) initial) at 2 3. cbn [fst snd].
  now destruct (fst (fst (translate E (snd kv) initial))).
Qed.

(** [forEach publish_light] neither reads nor writes the variables. *)
Lemma forEach_publish_pure b s :
  forEach (publish_light E) b s
  = (fst (fst (forEach (publish_light E) b initial)), s,
     snd (forEach (publish_light E) b initial)).
Proof.
  revert s. induction b as [|kv b IH]; intros s; [reflexivity|].
  cbn [forEach]. unfold bind.
  rewrite (publish_light_pure kv s), (publish_light_pure kv initial).
  cbn [fst snd].
  destruct (fst (fst (publish_light E kv initial))) as [[]|e]; [|reflexivity].
  rewrite (IH s), (IH initial). reflexivity.
Qed.

(** A successful fetch, in full. *)
Lemma succeeded_exact ip h b s :
  (statusCode h =? 200)%Z = true ->
  on_response E ip None (Some h) b s
  = (fst (fst (forEach (publish_light E) b initial)),
     {| statusMessage := Some ("Connected to " ++ ip);
        sentUnavailableAlarm :=
          if truthy_optbool (sentUnavailableAlarm s) then Some false
          else sentUnavailableAlarm s;
        onStop := onStop s; timers := timers s;
        next_handle := next_handle s |},
     ((if app_has_setProviderStatus E
       then [app_setProviderStatus ("Connected to " ++ ip)] else [])
      ++ (if truthy_optbool (sentUnavailableAlarm s)
          then [app_handleMessage plugin_id
                  (getAlarmDelta alarm_path "normal"
                     "The DAQ module is now available")] else [])
      ++ snd (forEach (publish_light E) b initial))%list).
Proof.
  intros H. unfold on_response. run_guard H.
  unfold setProviderStatus, when, bind, read, emit, ret,
    set_sentUnavailableAlarm, set_statusMessage, write.
  destruct (app_has_setProviderStatus E); cbn;
    destruct (truthy_optbool (sentUnavailableAlarm s)); cbn;
    rewrite forEach_publish_pure;
    destruct (forEach (publish_light E) b initial) as [[r1 s1] c1];
    reflexivity.
Qed.

End Exact.

Lemma filter_filter {A} (f g : A -> bool) l :
  filter f (filter g l) = filter (fun x => g x && f x) l.
Proof.
  induction l as [|x l IH]; [reflexivity|].
  cbn. destruct (g x); cbn; [destruct (f x)|]; now rewrite IH.
Qed.

Lemma filter_all {A} (f : A -> bool) l :
  (forall x, f x = true) -> filter f l = l.
Proof.
  intros H. induction l as [|x l IH]; [reflexivity|].
  cbn. now rewrite H, IH.
Qed.

(** [onStop.forEach(f => f())], in full. *)
Lemma forEach_disarm_exact fs s :
  forEach disarm fs s
  = (Normal tt,
     {| statusMessage := statusMessage s;
        sentUnavailableAlarm := sentUnavailableAlarm s;
        onStop := onStop s;
        timers := filter (fun t => negb (remembered fs t)) (timers s);
        next_handle := next_handle s |},
     map clearInterval fs).
Proof.
  revert s. induction fs as [|h fs IH]; intros s.
  - cbn. rewrite filter_all by reflexivity. now destruct s.
  - cbn [forEach]. unfold bind.
    unfold disarm at 1. unfold bind, write, emit.
    rewrite IH. cbn. rewrite filter_filter.
    do 3 f_equal. apply filter_ext. intros t.
    unfold remembered. cbn [existsb]. now rewrite negb_orb.
Qed.

(** ** What the other turns do, in full *)

Section Turn.

Variable E : env.

Lemma start_exact p s :
  exists e, turn_run E (Start p) s = (Thrown e, s, []).
Proof.
  cbn. unfold plugin_start, startLoading, call_global, bind, throw.
  destruct (globals E "load"); eexists; reflexivity.
Qed.

Lemma stop_exact s :
  turn_run E Stop s
  = (Normal tt,
     {| statusMessage := statusMessage s;
        sentUnavailableAlarm := sentUnavailableAlarm s;
        onStop := onStop s;
        timers := filter (fun t => negb (remembered (onStop s) t)) (timers s);
        next_handle := next_handle s |},
     map clearInterval (onStop s)).
Proof.
  cbn. unfold plugin_stop, bind, read. now rewrite forEach_disarm_exact.
Qed.

Lemma fire_exact h s :
  turn_run E (Fire h) s
  = (Normal tt, s,
     match find (fun t => (handle t =? h)%nat) (timers s) with
     | Some t => [request ("http://" ++ timer_ip t ++ "/state.xml") "GET"]
     | None => []
     end).
Proof.
  cbn. unfold bind, read. now destruct (find _ (timers s)).
Qed.

End Turn.

(** Case analysis on a turn, each case rewritten to what the turn does. *)
Ltac turn_cases E t s :=
  let p := fresh "p" in let h := fresh "h" in
  let ip := fresh "ip" in let e := fresh "e" in
  let resp := fresh "resp" in let b := fresh "b" in
  let x := fresh "x" in let Hx := fresh "Hx" in let C := fresh "C" in
  destruct t as [p| |h|ip [[e|] [resp|] b]];
  [ destruct (start_exact E p s) as (x & Hx); rewrite Hx
  | rewrite (stop_exact E s)
  | rewrite (fire_exact E h s)
  | cbn [turn_run error response body]; rewrite transport_error_exact
  | cbn [turn_run error response body]; rewrite transport_error_exact
  | cbn [turn_run error response body];
    destruct (statusCode resp =? 200)%Z eqn:C;
    [ rewrite (succeeded_exact E ip resp b s C)
    | rewrite (bad_status_exact E ip resp b s C) ]
  | cbn [turn_run error response body on_response fetched member bind throw] ].

(** ** Whole runs *)

Section Runs.

Variable E : env.

(** A record is published in one call or not at all. *)
Lemma publish_light_calls kv :
  snd (publish_light E kv initial) = []
  \/ exists vals,
       snd (publish_light E kv initial)
       = [app_handleMessage plugin_id {| updates := [ {| values := vals |} ] |}]
       /\ Forall (fun o => is_alarm o = false) vals.
Proof.
  unfold publish_light, bind.
  destruct (translate E (snd kv) initial) as [[[vals|e] s0] c0] eqn:T.
  - right. exists vals. pose proof (translate_pure E (snd kv) initial) as P.
    rewrite T in P. cbn in P. assert (c0 = []) as -> by congruence.
    split; [reflexivity|]. eapply translate_not_alarm; eassumption.
  - left. pose proof (translate_pure E (snd kv) initial) as P.
    rewrite T in P. cbn in P. assert (c0 = []) as -> by congruence.
    reflexivity.
Qed.

Lemma forEach_publish_calls b :
  Forall (fun c => exists vals,
            c = app_handleMessage plugin_id
                  {| updates := [ {| values := vals |} ] |}
            /\ Forall (fun o => is_alarm o = false) vals)
    (snd (forEach (publish_light E) b initial)).
Proof.
  induction b as [|kv b IH]; [constructor|].
  cbn [forEach]. unfold bind.
  rewrite (publish_light_pure E kv initial). 
  destruct (fst (fst (publish_light E kv initial))) as [[]|e].
  - rewrite (forEach_publish_pure E b initial). cbn [snd].
    apply Forall_app. split; [|exact IH].
    destruct (publish_light_calls kv) as [-> | (vals & -> & H)];
      [constructor|]. constructor; [|constructor]. now exists vals.
  - cbn [snd].
    destruct (publish_light_calls kv) as [-> | (vals & -> & H)];
      [constructor|]. constructor; [|constructor]. now exists vals.
Qed.

Lemma forEach_publish_no_notes b :
  filter is_note (snd (forEach (publish_light E) b initial)) = [].
Proof.
  apply filter_none. eapply Forall_impl; [|apply forEach_publish_calls].
  now intros c (vals & -> & _).
Qed.

Lemma forEach_publish_no_alarm b :
  alarm_observations (snd (forEach (publish_light E) b initial)) = [].
Proof.
  destruct (forEach_publish_quiet E b initial) as (r & cs & H & Q).
  now rewrite H.
Qed.

(** X13. After any sequence of turns, from any closure, the status message
    is the one the replies alone determine: "Connected to <ip>" after a
    successful fetch, "error: <message>" after a transport error, and
    unchanged by anything else (a reply with a status other than 200, a
    reply with neither error nor response, start, stop, a firing). It
    depends neither on the bodies, nor on what the host offers, nor on
    whether the translation throws. *)
Theorem status_follows_replies ts s :
  plugin_statusMessage (fst (play E ts s)) = status_after (statusMessage s) ts.
Proof.
  revert s. induction ts as [|t rest IH]; intros s; [reflexivity|].
  rewrite play_cons. cbn [fst]. rewrite IH.
  turn_cases E t s;
    cbn [fst snd status_after succeeded failed error response statusMessage];
    rewrite ?C; reflexivity.
Qed.

End Runs.

Lemma raised_after_app u os1 os2 :
  raised_after u (os1 ++ os2) = raised_after (raised_after u os1) os2.
Proof.
  revert u. induction os1 as [|o os1 IH]; intros u; [reflexivity|].
  cbn. apply IH.
Qed.

Lemma paired_app u os1 os2 :
  paired u (os1 ++ os2)
  = paired u os1 && paired (raised_after u os1) os2.
Proof.
  revert u. induction os1 as [|o os1 IH]; intros u; [reflexivity|].
  cbn. destruct (is_alert o); [apply IH|].
  rewrite IH. now rewrite !andb_assoc.
Qed.

Section Reports.

Variable E : env.

Lemma alarm_of_records b cs1 :
  alarm_observations (cs1 ++ snd (forEach (publish_light E) b initial))
  = alarm_observations cs1.
Proof.
  rewrite alarm_observations_app, forEach_publish_no_alarm. apply app_nil_r.
Qed.

(** X14. Across any sequence of turns, the reports made to the host are
    exactly these, in order: [app.setProviderStatus("Connected to <ip>")] for
    every successful fetch when the host has [setProviderStatus];
    [app.setProviderError(message)], when the host has it, followed by
    [app.error("error: " + message)] for every transport error; nothing for
    a reply whose status is not 200. *)
Theorem notes_follow_replies ts s :
  filter is_note (snd (play E ts s)) = due_notes E ts.
Proof.
  revert s. induction ts as [|t rest IH]; intros s; [reflexivity|].
  rewrite play_cons. cbn [snd]. rewrite filter_app, IH.
  turn_cases E t s;
    cbn [fst snd due_notes succeeded failed error response];
    rewrite ?C; try reflexivity.
  - induction (onStop s); [reflexivity|assumption].
  - now destruct (find _ (timers s)).
  - f_equal. cbn. now destruct (app_has_setProviderError E).
  - f_equal. cbn. now destruct (app_has_setProviderError E).
  - f_equal. rewrite !filter_app, forEach_publish_no_notes.
    destruct (app_has_setProviderStatus E),
      (truthy_optbool (sentUnavailableAlarm s)); reflexivity.
Qed.

(** One turn keeps the alarm observations paired with the flag. *)
Lemma turn_alarm_step t s :
  paired (truthy_optbool (sentUnavailableAlarm s))
    (alarm_observations (snd (turn_run E t s))) = true
  /\ raised_after (truthy_optbool (sentUnavailableAlarm s))
       (alarm_observations (snd (turn_run E t s)))
     = truthy_optbool (sentUnavailableAlarm (snd (fst (turn_run E t s)))).
Proof.
  turn_cases E t s; cbn [fst snd sentUnavailableAlarm truthy_optbool].
  - now split.
  - replace (alarm_observations (map clearInterval (onStop s))) with
      (@nil pathvalue); [now split|].
    induction (onStop s); [reflexivity|assumption].
  - replace (alarm_observations _) with (@nil pathvalue); [now split|].
    now destruct (find _ (timers s)).
  - replace (alarm_observations _) with [alert_observation]; [now split|].
    now destruct (app_has_setProviderError E).
  - replace (alarm_observations _) with [alert_observation]; [now split|].
    now destruct (app_has_setProviderError E).
  - rewrite app_assoc, alarm_of_records.
    destruct (truthy_optbool (sentUnavailableAlarm s)) eqn:T.
    + replace (alarm_observations _) with [normal_observation]; [now split|].
      now destruct (app_has_setProviderStatus E).
    + replace (alarm_observations _) with (@nil pathvalue);
        [now cbn; rewrite T|].
      now destruct (app_has_setProviderStatus E).
  - now split.
  - now split.
Qed.

(** X12. Across any sequence of turns, from any closure, every alarm
    observation is an alert or a normal, a normal is only published while the
    alarm stands raised (right after an alert, or first when the flag was set
    at the beginning), and at the end [sentUnavailableAlarm] is truthy
    exactly when the latest alarm observation is an alert. *)
Theorem alarm_pairs_with_flag ts s :
  paired (truthy_optbool (sentUnavailableAlarm s))
    (alarm_observations (snd (play E ts s))) = true
  /\ truthy_optbool (sentUnavailableAlarm (fst (play E ts s)))
     = raised_after (truthy_optbool (sentUnavailableAlarm s))
         (alarm_observations (snd (play E ts s))).
Proof.
  revert s. induction ts as [|t rest IH]; intros s; [split; reflexivity|].
  rewrite play_cons. cbn [fst snd].
  rewrite alarm_observations_app, paired_app, raised_after_app.
  destruct (turn_alarm_step t s) as [P R]. rewrite P, R.
  exact (IH _).
Qed.

End Reports.

Section Frame.

Variable E : env.

Lemma forEach_publish_app_calls b :
  forallb is_app_call (snd (forEach (publish_light E) b initial)) = true
  /\ forallb is_single_update (snd (forEach (publish_light E) b initial)) = true
  /\ existsb is_arming (snd (forEach (publish_light E) b initial)) = false.
Proof.
  induction (forEach_publish_calls E b) as [|c cs (vals & -> & _) _ IH].
  - now repeat split.
  - destruct IH as (I1 & I2 & I3). cbn. now rewrite I1, I2, I3.
Qed.

(** A turn keeps [onStop] and the next handle, arms nothing and can only take
    intervals away. *)
Lemma turn_frame t s :
  onStop (snd (fst (turn_run E t s))) = onStop s
  /\ next_handle (snd (fst (turn_run E t s))) = next_handle s
  /\ incl (timers (snd (fst (turn_run E t s)))) (timers s)
  /\ existsb is_arming (snd (turn_run E t s)) = false
  /\ forallb is_single_update (snd (turn_run E t s)) = true
  /\ (onStop s = [] -> timers s = [] ->
      forallb is_app_call (snd (turn_run E t s)) = true).
Proof.
  turn_cases E t s;
    cbn [fst snd onStop next_handle timers];
    (split; [reflexivity|]); (split; [reflexivity|]);
    (split; [try apply incl_refl|]).
  - now repeat split.
  - apply incl_filter.
  - repeat split.
    + induction (onStop s); [reflexivity|assumption].
    + induction (onStop s); [reflexivity|assumption].
    + now intros ->.
  - repeat split; try now destruct (find _ (timers s)).
    intros _ ->. reflexivity.
  - repeat split; now destruct (app_has_setProviderError E).
  - repeat split; now destruct (app_has_setProviderError E).
  - destruct (forEach_publish_app_calls b) as (I1 & I2 & I3).
    rewrite !existsb_app, !forallb_app, I1, I2, I3.
    repeat split;
      now destruct (app_has_setProviderStatus E),
        (truthy_optbool (sentUnavailableAlarm s)).
  - now repeat split.
  - now repeat split.
Qed.

(** X17. No sequence of turns arms an interval: [plugin.start] throws before
    [setInterval], so from any closure [onStop] and the next handle stay as
    they are, the armed intervals can only become fewer and no [setInterval]
    call is made. From the initial closure no interval is ever armed, and
    every call the plugin makes is a call on [app]: it never issues a GET and
    never clears an interval. *)
Theorem no_interval_is_ever_armed ts :
  (forall s,
     onStop (fst (play E ts s)) = onStop s
     /\ next_handle (fst (play E ts s)) = next_handle s
     /\ incl (timers (fst (play E ts s))) (timers s)
     /\ existsb is_arming (snd (play E ts s)) = false)
  /\ timers (fst (play E ts initial)) = []
  /\ forallb is_app_call (snd (play E ts initial)) = true.
Proof.
  assert (G : forall s,
     onStop (fst (play E ts s)) = onStop s
     /\ next_handle (fst (play E ts s)) = next_handle s
     /\ incl (timers (fst (play E ts s))) (timers s)
     /\ existsb is_arming (snd (play E ts s)) = false
     /\ (onStop s = [] -> timers s = [] ->
         forallb is_app_call (snd (play E ts s)) = true)).
  { induction ts as [|t rest IH]; intros s.
    - repeat split. apply incl_refl.
    - rewrite play_cons. cbn [fst snd].
      destruct (turn_frame t s) as (F1 & F2 & F3 & F4 & _ & F6).
      match goal with |- context [play E rest ?s1] =>
        destruct (IH s1) as (I1 & I2 & I3 & I4 & I5) end.
      rewrite I1, I2, F1, F2, existsb_app, F4, I4, forallb_app.
      repeat split.
      + eapply incl_tran; eassumption.
      + intros HO HT. rewrite (F6 HO HT). apply I5.
        * now rewrite F1.
        * rewrite HT in F3. now apply incl_l_nil. }
  split.
  - intros s. destruct (G s) as (G1 & G2 & G3 & G4 & _). now repeat split.
  - destruct (G initial) as (_ & _ & G3 & _ & G5). split.
    + now apply incl_l_nil.
    + now apply G5.
Qed.

End Frame.

(** X16. [plugin.stop()] never throws. It calls [clearInterval] once for
    every closure of [onStop], in order, takes the intervals with those
    handles away and keeps the others, and leaves [onStop] as it is: a second
    [stop] makes the same calls again and changes nothing. *)
Theorem stop_clears_and_repeats s :
  exists s',
    plugin_stop s = (Normal tt, s', map clearInterval (onStop s))
    /\ onStop s' = onStop s
    /\ timers s' = filter (fun t => negb (remembered (onStop s) t)) (timers s)
    /\ plugin_stop s' = (Normal tt, s', map clearInterval (onStop s)).
Proof.
  eexists. split; [|split; [|split]].
  - unfold plugin_stop, bind, read. rewrite forEach_disarm_exact. reflexivity.
  - reflexivity.
  - reflexivity.
  - unfold plugin_stop, bind, read. rewrite forEach_disarm_exact.
    cbn [onStop timers statusMessage sentUnavailableAlarm next_handle].
    rewrite filter_filter.
    rewrite (filter_ext _ (fun t => negb (remembered (onStop s) t)));
      [reflexivity|]. intros t. now destruct (remembered (onStop s) t).
Qed.

(** ** Outcomes of the translation *)

Lemma append_assoc_str (a b c : string) : (a ++ b) ++ c = a ++ b ++ c.
Proof. induction a as [|x a IH]; [reflexivity|]. cbn. now rewrite IH. Qed.

Lemma prefix_append p x : prefix p (p ++ x) = true.
Proof.
  induction p as [|c p IH]; [now destruct x|].
  cbn. now destruct (Ascii.ascii_dec c c).
Qed.

Lemma prefix_path q a :
  prefix "electrical.switches.hue."
    (("electrical.switches.hue." ++ q) ++ a) = true.
Proof. rewrite append_assoc_str. apply prefix_append. Qed.

Lemma color_values_namespace q st :
  Forall (fun o => prefix "electrical.switches.hue." (path o) = true)
    (color_values ("electrical.switches.hue." ++ q) st).
Proof.
  unfold color_values.
  destruct (colormode st) as [mode|]; [|constructor].
  destruct (negb (mode =? "")); [|constructor].
  repeat (apply Forall_app; split).
  - repeat (constructor; [apply prefix_path|]); constructor.
  - destruct (_ && _); repeat (constructor; [apply prefix_path|]); constructor.
  - destruct (truthy_optnum _);
      repeat (constructor; [apply prefix_path|]); constructor.
  - destruct (xy st); repeat (constructor; [apply prefix_path|]); constructor.
Qed.

Section Outcome.

Variable E : env.

Lemma translate_namespace l s vals s' cs :
  translate E l s = (Normal vals, s', cs) ->
  Forall (fun o => prefix "electrical.switches.hue." (path o) = true) vals.
Proof.
  unfold translate, global, member, bind, ret, throw.
  destruct (globals E "hueType") as [k|]; [|discriminate].
  destruct (name l) as [n|]; [|discriminate]. cbn [option_map].
  destruct (k =? "groups"); destruct (state l) as [ls|]; try discriminate;
    cbn [fst snd]; try (destruct (action l) as [a|]; try discriminate);
    intros H; inversion H; subst; clear H;
    repeat (constructor;
            [apply (prefix_path (k ++ "." ++ camelCase E n))|]);
    apply (color_values_namespace (k ++ "." ++ camelCase E n)).
Qed.

(** The outcome of a translation, by cases. *)
Lemma translate_cases l s :
  exists r,
    translate E l s = (r, s, [])
    /\ match globals E "hueType" with
       | None => r = Thrown (ReferenceError "hueType")
       | Some kind =>
           if readable kind l then exists vals, r = Normal vals
           else exists what, r = Thrown (TypeError what)
       end.
Proof.
  unfold translate, readable, effective, global, member, bind, ret, throw.
  destruct (globals E "hueType") as [k|]; [|eexists; split; reflexivity].
  destruct (name l) as [n|]; cbn [option_map];
    [|eexists; split; [reflexivity|]; now eexists].
  destruct (k =? "groups"); destruct (state l) as [ls|];
    cbn [fst snd]; try destruct (action l) as [a|];
    eexists; (split; [reflexivity|]); now eexists.
Qed.

(** X5. The translation of a record never writes a variable and makes no
    call. It returns the observations exactly when [hueType] is bound and the
    record has a name and the state objects that are read ([state], and
    [action] as well when [hueType] is "groups"); it throws a ReferenceError
    when [hueType] is unbound, and a TypeError when [hueType] is bound and
    the record lacks one of them. *)
Theorem translate_outcome l s :
  exists r,
    translate E l s = (r, s, [])
    /\ (translates E l = true <-> exists vals, r = Normal vals)
    /\ (globals E "hueType" = None -> r = Thrown (ReferenceError "hueType"))
    /\ (forall kind,
          globals E "hueType" = Some kind -> readable kind l = false ->
          exists what, r = Thrown (TypeError what)).
Proof.
  destruct (translate_cases l s) as (r & T & H).
  exists r. split; [exact T|]. unfold translates.
  destruct (globals E "hueType") as [k|].
  - destruct (readable k l) eqn:R.
    + destruct H as (vals & ->). repeat split; try discriminate.
      * now exists vals.
      * intros kind [= <-]. congruence.
    + destruct H as (w & ->). repeat split; try discriminate.
      * intros (vals & V). discriminate.
      * intros kind _ _. now exists w.
  - subst r. repeat split; try discriminate.
    intros (vals & V). discriminate.
Qed.

End Outcome.

Section Names.

Variable E : env.

Lemma publish_light_namespace kv :
  Forall (fun o => prefix "electrical.switches.hue." (path o) = true)
    (observations (snd (publish_light E kv initial))).
Proof.
  unfold publish_light, bind.
  destruct (translate E (snd kv) initial) as [[[vals|e] s0] c0] eqn:T.
  - pose proof (translate_pure E (snd kv) initial) as P.
    rewrite T in P. cbn in P. assert (c0 = []) as -> by congruence.
    cbn. rewrite !app_nil_r. eapply translate_namespace; eassumption.
  - pose proof (translate_pure E (snd kv) initial) as P.
    rewrite T in P. cbn in P. assert (c0 = []) as -> by congruence.
    constructor.
Qed.

Lemma forEach_publish_namespace b :
  Forall (fun o => prefix "electrical.switches.hue." (path o) = true)
    (observations (snd (forEach (publish_light E) b initial))).
Proof.
  induction b as [|kv b IH]; [constructor|].
  cbn [forEach]. unfold bind.
  rewrite (publish_light_pure E kv initial).
  destruct (fst (fst (publish_light E kv initial))) as [[]|e].
  - rewrite (forEach_publish_pure E b initial). cbn [snd].
    rewrite observations_app. apply Forall_app. split; [|exact IH].
    apply publish_light_namespace.
  - cbn [snd]. apply publish_light_namespace.
Qed.

Lemma turn_namespace t s :
  Forall (fun o => is_alarm o = true
                   \/ prefix "electrical.switches.hue." (path o) = true)
    (observations (snd (turn_run E t s))).
Proof.
  turn_cases E t s; cbn [fst snd].
  - constructor.
  - induction (onStop s); [constructor|assumption].
  - destruct (find _ (timers s)); constructor.
  - destruct (app_has_setProviderError E);
      (constructor; [now left|constructor]).
  - destruct (app_has_setProviderError E);
      (constructor; [now left|constructor]).
  - rewrite !observations_app. repeat (apply Forall_app; split).
    + destruct (app_has_setProviderStatus E); constructor.
    + destruct (truthy_optbool _); [|constructor].
      constructor; [now left|constructor].
    + eapply Forall_impl; [|apply forEach_publish_namespace].
      intros o H. now right.
  - constructor; [now left|constructor].
  - constructor.
Qed.

(** X18. Whatever the turns, every delta handed to [app.handleMessage]
    carries the plugin id "signalk-redhead-daq" and exactly one update, and
    every observation published has the path
    [notifications.redhead.daqUnavailable] or a path under
    [electrical.switches.hue.]. *)
Theorem published_shape ts s :
  forallb is_single_update (snd (play E ts s)) = true
  /\ Forall (fun o => path o = "notifications.redhead.daqUnavailable"
                      \/ prefix "electrical.switches.hue." (path o) = true)
       (observations (snd (play E ts s))).
Proof.
  split.
  - revert s. induction ts as [|t rest IH]; intros s; [reflexivity|].
    rewrite play_cons. cbn [snd]. rewrite forallb_app, IH.
    destruct (turn_frame E t s) as (_ & _ & _ & _ & F5 & _). now rewrite F5.
  - revert s. induction ts as [|t rest IH]; intros s; [constructor|].
    rewrite play_cons. cbn [snd]. rewrite observations_app.
    apply Forall_app. split; [|apply IH].
    eapply Forall_impl; [|apply (turn_namespace t s)].
    intros o [H|H]; [left|now right].
    now apply String.eqb_eq in H.
Qed.

End Names.

(** ** Exceptions *)

Section Throws.

Variable E : env.

Lemma publish_throws kv :
  translates E (snd kv) = false ->
  exists e, publish_light E kv initial = (Thrown e, initial, []).
Proof.
  intros H. unfold publish_light, bind.
  destruct (translate_cases E (snd kv) initial) as (r & T & K).
  rewrite T. unfold translates in H.
  destruct (globals E "hueType") as [k|].
  - rewrite H in K. destruct K as (w & ->). now eexists.
  - subst r. now eexists.
Qed.

Lemma publish_returns kv :
  translates E (snd kv) = true ->
  exists vals,
    translate E (snd kv) initial = (Normal vals, initial, [])
    /\ publish_light E kv initial
       = (Normal tt, initial,
          [app_handleMessage plugin_id
             {| updates := [ {| values := vals |} ] |}]).
Proof.
  intros H. unfold publish_light, bind.
  destruct (translate_cases E (snd kv) initial) as (r & T & K).
  rewrite T. unfold translates in H.
  destruct (globals E "hueType") as [k|]; [|discriminate].
  rewrite H in K. destruct K as (vals & ->). now exists vals.
Qed.

Lemma forEach_outcome b :
  fst (fst (forEach (publish_light E) b initial)) = Normal tt
  <-> forallb (fun kv => translates E (snd kv)) b = true.
Proof.
  induction b as [|kv b IH]; [now split|].
  cbn [forEach forallb]. unfold bind.
  destruct (translates E (snd kv)) eqn:T.
  - destruct (publish_returns kv T) as (vals & _ & ->).
    destruct (forEach (publish_light E) b initial) as [[r s1] c1].
    cbn [fst andb] in *. exact IH.
  - destruct (publish_throws kv T) as (e & ->). cbn. now split.
Qed.

(** X15. The turns that end with an exception are exactly these:
    [plugin.start], always; the callback with neither error nor response;
    the callback with a status other than 200 and no error; and the callback
    with status 200 whose body holds a record that cannot be translated.
    [plugin.stop], a firing interval and the callback with a transport error
    never throw. *)
Theorem turn_throws_exactly t s :
  (exists e, fst (fst (turn_run E t s)) = Thrown e)
  <-> turn_throws E t = true.
Proof.
  turn_cases E t s; cbn [fst snd turn_throws error response body];
    rewrite ?C.
  - split; [reflexivity | now eexists].
  - split; [now intros (e & H) | discriminate].
  - split; [now intros (e & H) | discriminate].
  - split; [now intros (x & H) | discriminate].
  - split; [now intros (x & H) | discriminate].
  - rewrite negb_true_iff. 
    destruct (forallb _ b) eqn:F.
    + apply forEach_outcome in F. rewrite F.
      split; [now intros (x & H) | discriminate].
    + split; [reflexivity|]. intros _.
      destruct (fst (fst (forEach (publish_light E) b initial))) as [[]|x] eqn:R.
      * apply forEach_outcome in R. congruence.
      * now exists x.
  - split; [reflexivity | now eexists].
  - split; [reflexivity | now eexists].
Qed.

(** X9. A record that cannot be translated cuts a successful fetch short:
    when the records before it can be translated, the callback throws, and
    what it has written and called by then is exactly what the same fetch
    does with only the records before it. Nothing of the records after it is
    published. *)
Theorem unreadable_record_cuts_the_tick ip h pre kv post s :
  statusCode h = 200%Z ->
  forallb (fun kv => translates E (snd kv)) pre = true ->
  translates E (snd kv) = false ->
  exists e s' cs,
    on_response E ip None (Some h) (pre ++ kv :: post)%list s
      = (Thrown e, s', cs)
    /\ on_response E ip None (Some h) pre s = (Normal tt, s', cs).
Proof.
  intros C P K. apply Z.eqb_eq in C.
  rewrite !(succeeded_exact E ip h _ s C).
  apply forEach_outcome in P.
  destruct (publish_throws kv K) as (e & T).
  pose proof (forEach_app (publish_light E) pre (kv :: post) initial) as A.
  unfold bind in A. cbn [forEach] in A. unfold bind in A.
  rewrite (forEach_publish_pure E pre initial) in A. rewrite P in A.
  rewrite T in A. rewrite A, P. cbn [fst snd]. rewrite app_nil_r.
  exists e. eexists _, _. split; reflexivity.
Qed.

End Throws.

Lemma record_observations_app cs1 cs2 :
  record_observations (cs1 ++ cs2)
  = (record_observations cs1 ++ record_observations cs2)%list.
Proof.
  unfold record_observations. rewrite observations_app. apply filter_app.
Qed.

(** ** Batches *)

Section Batches.

Variable E : env.

Lemma forEach_one_call_each b s :
  forallb (fun kv => translates E (snd kv)) b = true ->
  Forall2
    (fun kv c =>
       exists vals,
         translate E (snd kv) s = (Normal vals, s, [])
         /\ c = app_handleMessage "signalk-redhead-daq"
                  {| updates := [ {| values := vals |} ] |})
    b (snd (forEach (publish_light E) b initial)).
Proof.
  induction b as [|kv b IH]; [constructor|].
  cbn [forallb forEach]. intros H. apply andb_true_iff in H as [K Hb].
  destruct (publish_returns E kv K) as (vals & T & P).
  unfold bind. rewrite P.
  destruct (forEach (publish_light E) b initial) as [[r1 s1] c1] eqn:F.
  cbn [snd app]. constructor; [|apply (IH Hb)].
  exists vals. split; [|reflexivity].
  rewrite translate_pure, T. reflexivity.
Qed.

(** X10. A successful fetch whose records can all be translated returns
    normally and ends with exactly one [app.handleMessage] call per record,
    in the order of the keys, each with one update that holds that record's
    observations; the calls before them publish no record observation. *)
Theorem one_delta_per_record ip h b s :
  statusCode h = 200%Z ->
  forallb (fun kv => translates E (snd kv)) b = true ->
  exists s' head recs,
    on_response E ip None (Some h) b s = (Normal tt, s', (head ++ recs)%list)
    /\ record_observations head = []
    /\ Forall2
         (fun kv c =>
            exists vals,
              translate E (snd kv) s' = (Normal vals, s', [])
              /\ c = app_handleMessage "signalk-redhead-daq"
                       {| updates := [ {| values := vals |} ] |})
         b recs.
Proof.
  intros C H. apply Z.eqb_eq in C.
  rewrite (succeeded_exact E ip h b s C).
  pose proof (proj2 (forEach_outcome E b) H) as R. rewrite R.
  eexists _, (_ ++ _)%list, _. split; [now rewrite <- app_assoc|]. split.
  - now destruct (app_has_setProviderStatus E),
      (truthy_optbool (sentUnavailableAlarm s)).
  - now apply forEach_one_call_each.
Qed.

(** X11. The record observations of a successful fetch, and whether it
    throws, depend only on the body and the environment: two such fetches of
    one body give the same, whatever the status message, the alarm flag, the
    timers and the address are. *)
Theorem record_batches_ignore_the_closure ip1 ip2 h1 h2 b s1 s2 :
  statusCode h1 = 200%Z ->
  statusCode h2 = 200%Z ->
  fst (fst (on_response E ip1 None (Some h1) b s1))
  = fst (fst (on_response E ip2 None (Some h2) b s2))
  /\ record_observations (snd (on_response E ip1 None (Some h1) b s1))
     = record_observations (snd (on_response E ip2 None (Some h2) b s2)).
Proof.
  intros C1 C2. apply Z.eqb_eq in C1, C2.
  rewrite (succeeded_exact E ip1 h1 b s1 C1), (succeeded_exact E ip2 h2 b s2 C2).
  cbn [fst snd]. split; [reflexivity|].
  rewrite !record_observations_app. f_equal; [|f_equal].
  - now destruct (app_has_setProviderStatus E).
  - now destruct (truthy_optbool (sentUnavailableAlarm s1)),
      (truthy_optbool (sentUnavailableAlarm s2)).
Qed.

(** X6. For a readable record, once [hueType] is bound, [.hue] and
    [.saturation] are published together or not at all: exactly when the
    effective state has a non-empty [colormode] and both [hue] and [sat] are
    truthy. A hue of 0 or a saturation of 0 leaves both out. Their values
    are [hue / 182.04 / 360.0] and [sat / 255.0]. *)
Theorem hue_and_saturation_go_together kind l n st sw s :
  globals E "hueType" = Some kind ->
  name l = Some n ->
  effective kind l = Some (st, sw) ->
  exists vals,
    translate E l s = (Normal vals, s, [])
    /\ published_at
         (("electrical.switches.hue." ++ kind ++ "." ++ camelCase E n)
            ++ ".hue") vals
       = (if truthy_optstr (colormode st)
             && (truthy_optnum (hue st) && truthy_optnum (sat st))
          then Some (JNum (to_number (hue st) / 182.04 / 360.0)%float)
          else None)
    /\ published_at
         (("electrical.switches.hue." ++ kind ++ "." ++ camelCase E n)
            ++ ".saturation") vals
       = (if truthy_optstr (colormode st)
             && (truthy_optnum (hue st) && truthy_optnum (sat st))
          then Some (JNum (to_number (sat st) / 255.0)%float)
          else None).
Proof.
  intros G N Ef.
  eexists. split; [apply (translate_readable E kind l n st sw s G N Ef)|].
  change (base ++ "." ++ kind ++ "." ++ camelCase E n)
    with ("electrical.switches.hue." ++ kind ++ "." ++ camelCase E n).
  rewrite !published_at_skip by reflexivity.
  unfold color_values, truthy_optstr.
  destruct (colormode st) as [mode|]; [|split; reflexivity].
  destruct (negb (mode =? "")); [|split; reflexivity].
  cbn [app andb]. rewrite !published_at_skip by reflexivity.
  destruct (truthy_optnum (hue st) && truthy_optnum (sat st)); cbn [app].
  - rewrite published_at_here.
    rewrite published_at_skip by reflexivity. rewrite published_at_here.
    split; reflexivity.
  - destruct (truthy_optnum (ct st)); cbn [app];
      rewrite ?published_at_skip by reflexivity;
      (destruct (xy st); cbn [app];
       rewrite ?published_at_skip by reflexivity; split; reflexivity).
Qed.

(** X7. For a readable record, once [hueType] is bound, [.cie] is published
    exactly when the effective state has a non-empty [colormode] and an [xy]
    array, whatever its length; its value is [{x: xy[0], y: xy[1]}], a
    missing component being [undefined]. *)
Theorem cie_needs_colormode_and_xy kind l n st sw s :
  globals E "hueType" = Some kind ->
  name l = Some n ->
  effective kind l = Some (st, sw) ->
  exists vals,
    translate E l s = (Normal vals, s, [])
    /\ published_at
         (("electrical.switches.hue." ++ kind ++ "." ++ camelCase E n)
            ++ ".cie") vals
       = (if truthy_optstr (colormode st) then
            match xy st with
            | Some c => Some (JObj [ ("x", of_optnum (nth_error c 0));
                                     ("y", of_optnum (nth_error c 1)) ])
            | None => None
            end
          else None).
Proof.
  intros G N Ef.
  eexists. split; [apply (translate_readable E kind l n st sw s G N Ef)|].
  change (base ++ "." ++ kind ++ "." ++ camelCase E n)
    with ("electrical.switches.hue." ++ kind ++ "." ++ camelCase E n).
  rewrite !published_at_skip by reflexivity.
  unfold color_values, truthy_optstr.
  destruct (colormode st) as [mode|]; [|reflexivity].
  destruct (negb (mode =? "")); [|reflexivity].
  cbn [app]. rewrite !published_at_skip by reflexivity.
  destruct (truthy_optnum (hue st) && truthy_optnum (sat st)); cbn [app];
    rewrite ?published_at_skip by reflexivity;
    (destruct (truthy_optnum (ct st)); cbn [app];
     rewrite ?published_at_skip by reflexivity);
    (destruct (xy st); cbn [app]; [apply published_at_here | reflexivity]).
Qed.

End Batches.

(** ** Paths of a batch *)

Lemma append_inj_l p a b : p ++ a = p ++ b -> a = b.
Proof.
  intros H. apply String.eqb_eq. rewrite <- (append_eqb_l p).
  now apply String.eqb_eq.
Qed.

Lemma NoDup_map_append p l : NoDup l -> NoDup (map (append p) l).
Proof.
  induction 1 as [|a l Ha _ IH]; [constructor|].
  cbn. constructor; [|exact IH].
  intros H. apply in_map_iff in H as (b & Hb & Hin).
  apply append_inj_l in Hb. now subst b.
Qed.

Section Distinct.

Variable E : env.

(** X8. The batch of a readable record, once [hueType] is bound, has between
    three and eight observations, each at the record's path followed by one
    of the eight attribute names, and no path occurs twice in it. *)
Theorem batch_paths_are_distinct kind l n st sw s :
  globals E "hueType" = Some kind ->
  name l = Some n ->
  effective kind l = Some (st, sw) ->
  exists vals,
    translate E l s = (Normal vals, s, [])
    /\ NoDup (map path vals)
    /\ 3 <= length vals <= 8
    /\ Forall
         (fun o => exists a,
            In a attributes
            /\ path o
               = ("electrical.switches.hue." ++ kind ++ "." ++ camelCase E n)
                   ++ a) vals.
Proof.
  intros G N Ef.
  eexists. split; [apply (translate_readable E kind l n st sw s G N Ef)|].
  change (base ++ "." ++ kind ++ "." ++ camelCase E n)
    with ("electrical.switches.hue." ++ kind ++ "." ++ camelCase E n).
  set (p := "electrical.switches.hue." ++ kind ++ "." ++ camelCase E n).
  unfold color_values.
  destruct (colormode st) as [mode|];
    [destruct (negb (mode =? ""));
     [destruct (truthy_optnum (hue st) && truthy_optnum (sat st));
      destruct (truthy_optnum (ct st)); destruct (xy st)|]|];
    cbn [app map length path];
    (split; [|split; [lia|attribute_paths]]);
    lazymatch goal with
    | |- NoDup ?ps =>
        let sel := suffixes ps in
        apply (NoDup_map_append p sel); distinct_strings
    end.
Qed.

End Distinct.

(** ** The interval *)



Lemma find_app_skip {A} (f : A -> bool) l1 l2 :
  forallb (fun x => negb (f x)) l1 = true ->
  find f (l1 ++ l2) = find f l2.
Proof.
  induction l1 as [|x l1 IH]; [reflexivity|].
  cbn. intros H. apply andb_true_iff in H as [Hx Hl].
  apply negb_true_iff in Hx. rewrite Hx. now apply IH.
Qed.

Lemma find_filter_none {A} (f g : A -> bool) l :
  (forall x, f x = true -> g x = false) -> find f (filter g l) = None.
Proof.
  intros H. induction l as [|x l IH]; [reflexivity|].
  cbn. destruct (g x) eqn:G; [|exact IH].
  cbn. destruct (f x) eqn:F; [|exact IH].
  rewrite (H x F) in G. discriminate.
Qed.

Lemma remembered_last hs t :
  remembered (hs ++ [handle t]) t = true.
Proof.
  unfold remembered. rewrite existsb_app. cbn.
  now rewrite Nat.eqb_refl, orb_true_r.
Qed.

(** X19. [startLoading] is the call of [load] followed by the arming of the
    interval. Where every armed interval has a handle already given out, the
    arming returns normally and makes one [setInterval] call, with the period
    [(props.refreshRate || 5) * 1000] and the captured address; that
    interval, when it fires, issues one GET of [http://<ip>/state.xml];
    [plugin.stop()] then clears it, and it fires no more. *)
Theorem armed_interval_fires_until_stopped E p ip s :
  handles_given s = true ->
  startLoading E p ip = (call_global E "load" ;; startLoading_tail p ip)%js
  /\ exists s1,
       startLoading_tail p ip s
       = (Normal tt, s1,
          [setInterval {| handle := next_handle s; period_ms := period p;
                          timer_props := p; timer_ip := ip |}])
       /\ turn_run E (Fire (next_handle s)) s1
          = (Normal tt, s1, [request ("http://" ++ ip ++ "/state.xml") "GET"])
       /\ exists s2 cs,
            plugin_stop s1 = (Normal tt, s2, cs)
            /\ In (clearInterval (next_handle s)) cs
            /\ turn_run E (Fire (next_handle s)) s2 = (Normal tt, s2, []).
Proof.
  intros H. split; [reflexivity|].
  eexists. split; [reflexivity|]. split.
  - rewrite fire_exact. cbn [timers].
    rewrite find_app_skip.
    + cbn. now rewrite Nat.eqb_refl.
    + unfold handles_given in H. rewrite forallb_forall in *.
      intros t Ht. specialize (H t Ht). apply Nat.ltb_lt in H.
      apply negb_true_iff, Nat.eqb_neq. lia.
  - eexists _, _. split; [apply (stop_exact E)|]. split.
    + cbn [onStop]. apply in_map, in_or_app. right. now left.
    + rewrite fire_exact. cbn [timers onStop].
      rewrite find_filter_none; [reflexivity|].
      intros t Ht. apply Nat.eqb_eq in Ht. apply negb_false_iff.
      rewrite <- Ht. apply remembered_last.
Qed.

(** X19, on a sample: the initial closure and the default configuration. *)
Lemma armed_interval_witness :
  handles_given initial = true
  /\ exists s1,
       startLoading_tail default_props "192.168.1.20" initial
       = (Normal tt, s1,
          [setInterval {| handle := 0; period_ms := 5000%float;
                          timer_props := default_props;
                          timer_ip := "192.168.1.20" |}])
       /\ turn_run node_env (Fire 0) s1
          = (Normal tt, s1, [request "http://192.168.1.20/state.xml" "GET"])
       /\ exists s2 cs,
            plugin_stop s1 = (Normal tt, s2, cs)
            /\ In (clearInterval 0) cs
            /\ turn_run node_env (Fire 0) s2 = (Normal tt, s2, []).
Proof.
  split; [reflexivity|].
  exact (proj2 (armed_interval_fires_until_stopped node_env default_props
                  "192.168.1.20" initial eq_refl)).
Defined.

(** ** Samples *)

(** X6, on a sample: [spot], whose [hue] is 0. *)
Lemma hue_and_saturation_witness :
  exists vals,
    translate (hue_env "lights") spot initial = (Normal vals, initial, [])
    /\ published_at "electrical.switches.hue.lights.spot.hue" vals = None
    /\ published_at "electrical.switches.hue.lights.spot.saturation" vals
       = None.
Proof.
  exact (hue_and_saturation_go_together (hue_env "lights") "lights" spot
           "Spot" _ _ initial eq_refl eq_refl eq_refl).
Defined.

(** X7, on a sample: [spot], whose [xy] has one component. *)
Lemma cie_witness :
  exists vals,
    translate (hue_env "lights") spot initial = (Normal vals, initial, [])
    /\ published_at "electrical.switches.hue.lights.spot.cie" vals
       = Some (JObj [ ("x", JNum 0.4571%float); ("y", JUndefined) ]).
Proof.
  exact (cie_needs_colormode_and_xy (hue_env "lights") "lights" spot
           "Spot" _ _ initial eq_refl eq_refl eq_refl).
Defined.

(** X8, on a sample: [lamp1]. *)
Lemma batch_paths_witness :
  exists vals,
    translate (hue_env "lights") lamp1 initial = (Normal vals, initial, [])
    /\ NoDup (map path vals)
    /\ 3 <= length vals <= 8
    /\ Forall
         (fun o => exists a,
            In a attributes
            /\ path o = "electrical.switches.hue.lights.lamp1" ++ a) vals.
Proof.
  exact (batch_paths_are_distinct (hue_env "lights") "lights" lamp1
           "Lamp1" _ _ initial eq_refl eq_refl eq_refl).
Defined.

(** X9, on a sample: a record without fields between two readable ones. *)
Lemma unreadable_record_witness :
  exists e s' cs,
    on_response (hue_env "lights") "192.168.1.20" None
      (Some {| statusCode := 200 |})
      [("1", lamp1); ("2", blank); ("3", strip)] initial = (Thrown e, s', cs)
    /\ on_response (hue_env "lights") "192.168.1.20" None
         (Some {| statusCode := 200 |}) [("1", lamp1)] initial
       = (Normal tt, s', cs).
Proof.
  exact (unreadable_record_cuts_the_tick (hue_env "lights") "192.168.1.20"
           {| statusCode := 200 |} [("1", lamp1)] ("2", blank) [("3", strip)]
           initial eq_refl eq_refl eq_refl).
Defined.

(** X10, on a sample: two records, the alarm being raised. *)
Lemma one_delta_per_record_witness :
  exists s' head recs,
    on_response (hue_env "lights") "192.168.1.20" None
      (Some {| statusCode := 200 |}) [("1", lamp1); ("2", strip)] unavailable
    = (Normal tt, s', (head ++ recs)%list)
    /\ record_observations head = []
    /\ Forall2
         (fun kv c =>
            exists vals,
              translate (hue_env "lights") (snd kv) s' = (Normal vals, s', [])
              /\ c = app_handleMessage "signalk-redhead-daq"
                       {| updates := [ {| values := vals |} ] |})
         [("1", lamp1); ("2", strip)] recs.
Proof.
  exact (one_delta_per_record (hue_env "lights") "192.168.1.20"
           {| statusCode := 200 |} [("1", lamp1); ("2", strip)] unavailable
           eq_refl eq_refl).
Defined.

(** X11, on a sample: the initial closure and one with the alarm raised. *)
Lemma record_batches_witness :
  fst (fst (on_response (hue_env "lights") "192.168.1.20" None
              (Some {| statusCode := 200 |}) [("1", lamp1)] initial))
  = fst (fst (on_response (hue_env "lights") "192.168.1.20" None
                (Some {| statusCode := 200 |}) [("1", lamp1)] unavailable))
  /\ record_observations
       (snd (on_response (hue_env "lights") "192.168.1.20" None
               (Some {| statusCode := 200 |}) [("1", lamp1)] initial))
     = record_observations
         (snd (on_response (hue_env "lights") "192.168.1.20" None
                 (Some {| statusCode := 200 |}) [("1", lamp1)] unavailable)).
Proof.
  exact (record_batches_ignore_the_closure (hue_env "lights") "192.168.1.20"
           "192.168.1.20" {| statusCode := 200 |} {| statusCode := 200 |}
           [("1", lamp1)] initial unavailable eq_refl eq_refl).
Defined.
